(** * Lanczos band-pass filter ([lanczosbp.py]): model and verified properties

    The program builds two Lanczos low-pass weight vectors with
    [low_pass_weights], applies each of them to a gridded time series as a
    centred rolling dot product, subtracts the two filtered series and takes
    the variance over time.

    Numbers: NumPy's float64 values are idealised as real numbers; a NaN
    (xarray's missing value) is the [None] of [option R], and arithmetic on
    values propagates it.  Python integers are [Z], [//] is [Z.div] (both
    round towards minus infinity).  A raised exception is the [inl] of
    [result]. *)

From Stdlib Require Import ZArith Reals Lra Lia.
From stdpp Require Import base list.

(** ** Exceptions *)

Inductive exn : Type :=
| ValueError
| IndexError.

Definition result (A : Type) : Type := (exn + A)%type.

Definition raise {A : Type} (e : exn) : result A := inl e.
Definition ret {A : Type} (a : A) : result A := inr a.

Definition bind {A B : Type} (m : result A) (k : A -> result B) : result B :=
  match m with
  | inl e => inl e
  | inr a => k a
  end.

Notation "'let!' x ':=' m 'in' k" := (bind m (fun x => k))
  (at level 10, x name, m at level 100, k at level 200).

(** ** NumPy one-dimensional arrays *)

Module Np.

Abbreviation ndarray := (list R) (only parsing).

(** [np.zeros([n])]: a negative dimension raises [ValueError]. *)
Definition zeros (n : Z) : result ndarray :=
  if (n <? 0)%Z then raise ValueError else ret (replicate (Z.to_nat n) 0%R).

(** [np.arange(1., stop)] for an integer [stop]: the values
    [1.0, 2.0, ..., stop - 1]; empty when [stop <= 1]. *)
Definition arange1 (stop : Z) : ndarray :=
  (fun i : nat => IZR (1 + Z.of_nat i)) <$> seq 0 (Z.to_nat (stop - 1)).

(** [w[i] = v] for an integer index: negative indices count from the end,
    anything outside [-len, len) raises [IndexError]. *)
Definition setitem (w : ndarray) (i : Z) (v : R) : result ndarray :=
  let len := Z.of_nat (length w) in
  if ((0 <=? i) && (i <? len))%Z then ret (<[Z.to_nat i := v]> w)
  else if ((- len <=? i) && (i <? 0))%Z then ret (<[Z.to_nat (i + len) := v]> w)
  else raise IndexError.

(** Clipping of one slice bound, as [PySlice_AdjustIndices] does it. *)
Definition adjust_index (len step i : Z) : Z :=
  if (i <? 0)%Z then
    (if (i + len <? 0)%Z then (if (step <? 0)%Z then -1 else 0) else i + len)%Z
  else if (len <=? i)%Z then (if (step <? 0)%Z then len - 1 else len)%Z
  else i.

(** Number of elements a slice with clipped bounds selects. *)
Definition slice_length (start stop step : Z) : Z :=
  if (step <? 0)%Z then
    (if (stop <? start)%Z then (start - stop - 1) / (- step) + 1 else 0)%Z
  else
    (if (start <? stop)%Z then (stop - start - 1) / step + 1 else 0)%Z.

(** The positions [w[start:stop:step]] selects in an array of length [len]. *)
Definition slice_indices (len : nat) (start stop step : Z) : list nat :=
  let s := adjust_index (Z.of_nat len) step start in
  let e := adjust_index (Z.of_nat len) step stop in
  (fun i : nat => Z.to_nat (s + Z.of_nat i * step)) <$>
    seq 0 (Z.to_nat (slice_length s e step)).

(** Store [vs] at the positions [idx], in order. *)
Definition assign (w : ndarray) (idx : list nat) (vs : list R) : ndarray :=
  foldl (fun acc iv => <[fst iv := snd iv]> acc) w (zip idx vs).

(** [w[start:stop:step] = vs]: the value must have the slice's length or
    length one (which is broadcast); any other length raises [ValueError]. *)
Definition set_slice (w : ndarray) (start stop step : Z) (vs : list R)
  : result ndarray :=
  let idx := slice_indices (length w) start stop step in
  if decide (length vs = length idx) then ret (assign w idx vs)
  else if decide (length vs = 1)
       then ret (assign w idx (replicate (length idx) (default 0%R (head vs))))
       else raise ValueError.

(** [w[start:stop:step]] read. *)
Definition get_slice (w : ndarray) (start stop step : Z) : ndarray :=
  (fun j : nat => default 0%R (w !! j)) <$>
    slice_indices (length w) start stop step.

End Np.

(** ** The weight generator *)

(** The two factors of a weight at distance [k] from the centre, for
    centre index [n]. *)
Definition sigma_factor (n : Z) (k : R) : R :=
  (sin (PI * k / IZR n) * IZR n / (PI * k))%R.

Definition first_factor (cutoff : R) (k : R) : R :=
  (sin (2 * PI * cutoff * k) / (PI * k))%R.

Definition low_pass_weights (window : Z) (cutoff : R) : result Np.ndarray :=
  let order := ((window - 1) / 2 + 1)%Z in
  let nwts := (2 * order + 1)%Z in
  let! w := Np.zeros nwts in
  let n := (nwts / 2)%Z in
  let! w := Np.setitem w n (2 * cutoff)%R in
  let k := Np.arange1 n in
  let sigma := sigma_factor n <$> k in
  let firstfactor := first_factor cutoff <$> k in
  let! w := Np.set_slice w (n - 1) 0 (-1) (zip_with Rmult firstfactor sigma) in
  let! w := Np.set_slice w (n + 1) (-1) 1 (zip_with Rmult firstfactor sigma) in
  ret (Np.get_slice w 1 (-1) 1).

(** The values lines 55 and 56 store on either side of the centre [n]:
    entry [k - 1] is the weight at distance [k]. *)
Definition lanczos_side (n : Z) (cutoff : R) : list R :=
  (fun k => first_factor cutoff k * sigma_factor n k)%R <$> Np.arange1 n.

(** ** xarray: labelled arrays with missing values *)

(** A cell value: [None] is NaN, xarray's missing value. *)
Abbreviation val := (option R) (only parsing).

(** The values of one spatial cell along the dimension [time]. *)
Abbreviation series := (list val) (only parsing).

(** A [DataArray] with dimensions [(time, lat, lon)].  Every operation the
    program applies acts along the named dimension [time] and cell by cell
    on the others, so the array is kept as a [lat] by [lon] table of time
    series.  Each series carries the time extent, the same in every cell;
    the statements below name it [T]. *)
Abbreviation DataArray := (list (list series)) (only parsing).

(** A [DataArray] with dimensions [(lat, lon)]. *)
Abbreviation Field := (list (list val)) (only parsing).

Module Xr.

(** Cell by cell application over the dimensions [(lat, lon)]. *)
Definition map_cells {A B : Type} (f : A -> B) (da : list (list A))
  : list (list B) :=
  fmap (M := list) (fmap (M := list) f) da.

Definition vadd (a b : val) : val :=
  match a, b with
  | Some x, Some y => Some (x + y)%R
  | _, _ => None
  end.

Definition vsub (a b : val) : val :=
  match a, b with
  | Some x, Some y => Some (x - y)%R
  | _, _ => None
  end.

Definition vscale (a : val) (w : R) : val :=
  match a with
  | Some x => Some (x * w)%R
  | None => None
  end.

(** Padding of the [time] axis with the fill value NaN. *)
Definition pad (before after : nat) (s : series) : series :=
  replicate before None ++ s ++ replicate after None.

(** All contiguous windows of length [L] of [p], in order:
    [length p - L + 1] of them. *)
Definition sliding_window_view (L : nat) (p : series) : list (list val) :=
  (fun t : nat => take L (drop t p)) <$> seq 0 (length p + 1 - L).

(** [s.rolling(time = L, center = True).construct('window')] on one cell:
    the series is padded with [L // 2] fill values in front and
    [L - 1 - L // 2] behind, and entry [t] of the result is the window
    that starts at position [t] of the padded series. *)
Definition rolling_construct_series (L : nat) (s : series) : list (list val) :=
  sliding_window_view L (pad (L / 2) (L - 1 - L / 2) s).

(** [da.rolling(time = L, center = True).construct('window')]: the new
    dimension [window] is the innermost one.  A window length that is not
    positive raises [ValueError]; so does a window longer than the padded
    time axis, which the strided view refuses: the padded axis has
    [T + L - 1] steps, so this is the case of an empty time axis. *)
Definition rolling_construct (L : nat) (da : DataArray)
  : result (list (list (list (list val)))) :=
  if decide (L = 0) then raise ValueError
  else if decide (Exists (Exists (fun s : series =>
                 length (pad (L / 2) (L - 1 - L / 2) s) < L)) da)
  then raise ValueError
  else ret (map_cells (rolling_construct_series L) da).

(** Sum of products over the dimension [window]. *)
Definition dot_window (win : list val) (weights : list R) : val :=
  foldr vadd (Some 0%R) (zip_with vscale win weights).

(** [c.dot(weights)], contracting the dimension [window]. *)
Definition dot (c : list (list (list (list val)))) (weights : list R)
  : DataArray :=
  map_cells (fmap (M := list) (fun win => dot_window win weights)) c.

(** [a - b] on arrays with the same coordinates. *)
Definition sub (a b : DataArray) : DataArray :=
  zip_with (zip_with (zip_with vsub)) a b.

(** The non-missing values of a series. *)
Definition present (s : series) : list R :=
  omap (M := list) (fun v : val => v) s.

Definition Rsum (xs : list R) : R := foldr Rplus 0%R xs.

(** [nanvar] with [ddof] delta degrees of freedom on one cell: NaN when
    no more than [ddof] values are present, else the mean squared
    deviation from the mean of the values present, over their count minus
    [ddof]. *)
Definition nanvar (ddof : nat) (s : series) : val :=
  let xs := present s in
  if decide (length xs <= ddof) then None
  else
    let mean := (Rsum xs / INR (length xs))%R in
    Some (Rsum ((fun x => (x - mean) * (x - mean))%R <$> xs)
          / INR (length xs - ddof))%R.

(** [xr.DataArray.var(da, dim = 'time', skipna = True)]; [ddof] is left at
    its default 0. *)
Definition var (da : DataArray) : Field :=
  map_cells (nanvar 0) da.

End Xr.

(** ** The filtering pipeline of [main] *)

(** One rolling filter: lines 87 and 88 of the program. *)
Definition apply_filter (daily_data : DataArray) (weights : Np.ndarray)
  : result DataArray :=
  let! c := Xr.rolling_construct (length weights) daily_data in
  ret (Xr.dot c weights).

(** Lines 87 to 105: both low-pass filters, their difference, and the
    variance over time. *)
Definition bandpass_variance (daily_data : DataArray) (hfw lfw : Np.ndarray)
  : result Field :=
  let! lowpass_hf := apply_filter daily_data hfw in
  let! lowpass_lf := apply_filter daily_data lfw in
  let bandpass := Xr.sub lowpass_hf lowpass_lf in
  ret (Xr.var bandpass).

(** [main] from the construction of the weights to [dvar], for a window
    parameter and two cutoffs; the program uses 50, 1/3 and 1/10. *)
Definition tc_seed_index (window : Z) (cut_hf cut_lf : R)
    (daily_data : DataArray) : result Field :=
  let! hfw := low_pass_weights window cut_hf in
  let! lfw := low_pass_weights window cut_lf in
  bandpass_variance daily_data hfw lfw.

Definition main (daily_data : DataArray) : result Field :=
  tc_seed_index 50 (1 / 3) (1 / 10) daily_data.

(** ** Vocabulary of the statements *)

(** The value at row [i], column [j] of a table, if the table has it. *)
Definition cell {A : Type} (da : list (list A)) (i j : nat) : option A :=
  match da !! i with
  | Some row => row !! j
  | None => None
  end.

(** What [apply_filter] does to the series of one cell. *)
Definition filter_series (weights : list R) (s : series) : series :=
  (fun win => Xr.dot_window win weights)
    <$> Xr.rolling_construct_series (length weights) s.

(** The band-passed series of one cell: line 91 on the two filtered
    series. *)
Definition bandpass_series (hfw lfw : list R) (s : series) : series :=
  zip_with Xr.vsub (filter_series hfw s) (filter_series lfw s).

(** Two arrays have the same extents: as many rows, as many cells in each
    row, as many time steps in each cell. *)
Definition same_shape (a b : list (list (list (option R)))) : Prop :=
  Forall2 (Forall2 (fun s1 s2 => length s1 = length s2)) a b.

(** Every cell of the table satisfies [P]. *)
Definition all_cells {A : Type} (P : A -> Prop) (da : list (list A)) : Prop :=
  Forall (Forall P) da.

(** The window of entry [t] reads no padding: it starts [L / 2] steps
    before [t] and its [L] entries end inside a series of [T] steps. *)
Definition full_window (L T t : nat) : Prop :=
  L / 2 <= t /\ t + (L - 1 - L / 2) < T.

#[global] Instance full_window_dec (L T t : nat) : Decision (full_window L T t).
Proof. unfold full_window. apply _. Defined.

(** * Properties *)

(** ** Indexed stores *)

Section assign.
Implicit Types (w vs : list R) (idx : list nat).

Lemma assign_nil_l w vs : Np.assign w [] vs = w.
Proof. reflexivity. Qed.

Lemma assign_cons w i idx v vs :
  Np.assign w (i :: idx) (v :: vs) = Np.assign (<[i := v]> w) idx vs.
Proof. reflexivity. Qed.

Lemma assign_length w idx vs : length (Np.assign w idx vs) = length w.
Proof.
  revert w vs. induction idx as [|i idx IH]; intros w [|v vs]; try done.
  rewrite assign_cons, IH. apply length_insert.
Qed.

Lemma assign_lookup_notin w idx vs j :
  j ∉ idx -> Np.assign w idx vs !! j = w !! j.
Proof.
  revert w vs. induction idx as [|i idx IH]; intros w [|v vs] Hj; try done.
  rewrite assign_cons, IH by (intros ?; apply Hj; by right).
  apply list_lookup_insert_ne. intros ->. apply Hj. by left.
Qed.

Lemma assign_lookup_in w idx vs k j v :
  NoDup idx -> idx !! k = Some j -> vs !! k = Some v -> j < length w ->
  Np.assign w idx vs !! j = Some v.
Proof.
  revert w vs k. induction idx as [|i idx IH]; intros w vs k Hnd Hk Hv Hlt.
  - done.
  - destruct vs as [|v0 vs]; [done|].
    apply NoDup_cons in Hnd as [Hi Hnd]. rewrite assign_cons.
    destruct k as [|k]; simpl in Hk, Hv.
    + injection Hk as ->. injection Hv as ->.
      rewrite assign_lookup_notin by done.
      by apply list_lookup_insert_eq.
    + eapply IH; eauto. by rewrite length_insert.
Qed.
End assign.

(** ** The three slices of [low_pass_weights] *)

(** In an array of [2 * N + 1] entries with [1 <= N]: [w[N-1:0:-1]] runs
    from [N - 1] down to 1, [w[N+1:-1]] from [N + 1] up to [2 * N - 1], and
    [w[1:-1]] from 1 up to [2 * N - 1]. *)

Lemma adjust_index_inside (len step i : Z) :
  (0 <= i < len)%Z -> Np.adjust_index len step i = i.
Proof.
  intros Hi. unfold Np.adjust_index.
  destruct (Z.ltb_spec i 0); [lia|].
  destruct (Z.leb_spec len i); [lia|]. reflexivity.
Qed.

Lemma adjust_index_from_end (len step i : Z) :
  (- len <= i < 0)%Z -> Np.adjust_index len step i = (i + len)%Z.
Proof.
  intros Hi. unfold Np.adjust_index.
  destruct (Z.ltb_spec i 0); [|lia].
  destruct (Z.ltb_spec (i + len) 0); [lia|]. reflexivity.
Qed.

Lemma slice_length_down (start stop : Z) :
  (stop <= start)%Z -> Np.slice_length start stop (-1) = (start - stop)%Z.
Proof.
  intros H. unfold Np.slice_length. change (-1 <? 0)%Z with true. cbv iota.
  change (- (-1))%Z with 1%Z. rewrite Z.div_1_r.
  destruct (Z.ltb_spec stop start); lia.
Qed.

Lemma slice_length_up (start stop : Z) :
  (start <= stop)%Z -> Np.slice_length start stop 1 = (stop - start)%Z.
Proof.
  intros H. unfold Np.slice_length. change (1 <? 0)%Z with false. cbv iota.
  rewrite Z.div_1_r. destruct (Z.ltb_spec start stop); lia.
Qed.

Lemma slice_indices_down (N : nat) :
  1 <= N ->
  Np.slice_indices (2 * N + 1) (Z.of_nat N - 1) 0 (-1)
  = (fun i => N - 1 - i) <$> seq 0 (N - 1).
Proof.
  intros HN. unfold Np.slice_indices.
  rewrite !adjust_index_inside, slice_length_down by lia.
  replace (Z.to_nat (Z.of_nat N - 1 - 0)) with (N - 1) by lia.
  apply list_fmap_ext. intros i x Hx. apply lookup_seq in Hx. lia.
Qed.

Lemma slice_indices_up (N : nat) :
  1 <= N ->
  Np.slice_indices (2 * N + 1) (Z.of_nat N + 1) (-1) 1 = seq (N + 1) (N - 1).
Proof.
  intros HN. unfold Np.slice_indices.
  rewrite adjust_index_inside, adjust_index_from_end, slice_length_up by lia.
  replace (Z.to_nat (_ - _)) with (N - 1) by lia.
  replace (seq (N + 1)) with (seq (N + 1 + 0)) by (f_equal; lia).
  rewrite <- fmap_add_seq.
  apply list_fmap_ext. intros i x Hx. apply lookup_seq in Hx. lia.
Qed.

Lemma slice_indices_inner (N : nat) :
  1 <= N ->
  Np.slice_indices (2 * N + 1) 1 (-1) 1 = seq 1 (2 * N - 1).
Proof.
  intros HN. unfold Np.slice_indices.
  rewrite adjust_index_inside, adjust_index_from_end, slice_length_up by lia.
  replace (Z.to_nat (_ - _)) with (2 * N - 1) by lia.
  change (seq 1) with (seq (1 + 0)). rewrite <- fmap_add_seq.
  apply list_fmap_ext. intros i x Hx. apply lookup_seq in Hx. lia.
Qed.

(** ** Assembly of the weight vector *)

(** Storing [c] at the centre [N] of [2 * N + 1] zeros, then [vals] from
    [N - 1] downwards and from [N + 1] upwards, and dropping both ends,
    leaves the reversed [vals], [c], and [vals]. *)
Lemma weights_assembly (N : nat) (c : R) (vals : list R) :
  1 <= N -> length vals = N - 1 ->
  (fun j : nat =>
     default 0%R
       (Np.assign
          (Np.assign (<[N := c]> (replicate (2 * N + 1) 0%R))
                     ((fun i => N - 1 - i) <$> seq 0 (N - 1)) vals)
          (seq (N + 1) (N - 1)) vals !! j))
    <$> seq 1 (2 * N - 1)
  = reverse vals ++ c :: vals.
Proof.
  intros HN Hlen.
  set (w1 := <[N := c]> (replicate (2 * N + 1) 0%R)).
  set (idx1 := (fun i => N - 1 - i) <$> seq 0 (N - 1)).
  set (w2 := Np.assign w1 idx1 vals).
  apply list_eq. intros i. rewrite list_lookup_fmap.
  destruct (decide (i < 2 * N - 1)) as [Hi|Hi].
  2:{ rewrite lookup_seq_ge by lia. symmetry. apply lookup_ge_None.
      rewrite length_app, length_reverse. simpl. lia. }
  rewrite lookup_seq_lt by lia. change (1 + i) with (S i). cbn [fmap option_fmap option_map].
  assert (Hw1 : length w1 = 2 * N + 1).
  { unfold w1. by rewrite length_insert, length_replicate. }
  assert (Hw2 : length w2 = 2 * N + 1).
  { unfold w2. by rewrite assign_length. }
  assert (Hnd1 : NoDup idx1).
  { apply NoDup_fmap_2_strong; [|apply NoDup_seq].
    intros x y Hx%elem_of_seq Hy%elem_of_seq. lia. }
  destruct (decide (i < N - 1)) as [Hlo|Hlo].
  - (* left half *)
    rewrite assign_lookup_notin by (intros ?%elem_of_seq; lia).
    destruct (lookup_lt_is_Some_2 vals (N - 2 - i)) as [v Hv]; [lia|].
    unfold w2. erewrite (assign_lookup_in w1 idx1 vals (N - 2 - i) (S i) v);
      [|done| |done|lia].
    2:{ unfold idx1. rewrite list_lookup_fmap, lookup_seq_lt by lia.
        simpl. f_equal. lia. }
    rewrite lookup_app_l by (rewrite length_reverse; lia).
    rewrite reverse_lookup by lia.
    replace (length vals - S i) with (N - 2 - i) by lia. by rewrite Hv.
  - destruct (decide (i = N - 1)) as [->|Hmid].
    + (* centre *)
      rewrite assign_lookup_notin by (intros ?%elem_of_seq; lia).
      unfold w2. rewrite assign_lookup_notin.
      2:{ unfold idx1. intros (k & ? & ?%elem_of_seq)%list_elem_of_fmap. lia. }
      replace (S (N - 1)) with N by lia.
      unfold w1. rewrite list_lookup_insert_eq by (rewrite length_replicate; lia).
      rewrite lookup_app_r by (rewrite length_reverse; lia).
      rewrite length_reverse, Hlen, Nat.sub_diag. reflexivity.
    + (* right half *)
      destruct (lookup_lt_is_Some_2 vals (i - N)) as [v Hv]; [lia|].
      erewrite (assign_lookup_in w2 _ vals (i - N) (S i) v);
        [|apply NoDup_seq| |done|lia].
      2:{ rewrite lookup_seq_lt by lia. f_equal. lia. }
      rewrite lookup_app_r by (rewrite length_reverse; lia).
      rewrite length_reverse, Hlen.
      replace (i - (N - 1)) with (S (i - N)) by lia. simpl. by rewrite Hv.
Qed.

(** ** What [low_pass_weights] returns *)

Lemma setitem_inside (w : list R) (i : Z) (v : R) :
  (0 <= i < Z.of_nat (length w))%Z ->
  Np.setitem w i v = inr (<[Z.to_nat i := v]> w).
Proof.
  intros Hi. unfold Np.setitem.
  destruct (Z.leb_spec 0 i); [|lia].
  destruct (Z.ltb_spec i (Z.of_nat (length w))); [|lia]. reflexivity.
Qed.

Lemma set_slice_fits (w : list R) (start stop step : Z) (vs : list R) :
  length vs = length (Np.slice_indices (length w) start stop step) ->
  Np.set_slice w start stop step vs
  = inr (Np.assign w (Np.slice_indices (length w) start stop step) vs).
Proof. intros H. unfold Np.set_slice. by rewrite decide_True. Qed.

Lemma zip_with_fmap_same {A B C D : Type} (h : B -> C -> D)
    (f : A -> B) (g : A -> C) (l : list A) :
  zip_with h (f <$> l) (g <$> l) = (fun x => h (f x) (g x)) <$> l.
Proof. induction l as [|x l IH]; csimpl; [done|]. by f_equal. Qed.

Lemma arange1_length (n : Z) : length (Np.arange1 n) = Z.to_nat (n - 1).
Proof. unfold Np.arange1. by rewrite length_fmap, length_seq. Qed.

Lemma arange1_lookup (n : Z) (i : nat) :
  i < Z.to_nat (n - 1) -> Np.arange1 n !! i = Some (IZR (1 + Z.of_nat i)).
Proof.
  intros Hi. unfold Np.arange1. by rewrite list_lookup_fmap, lookup_seq_lt.
Qed.

Lemma lanczos_side_length (n : Z) (cutoff : R) :
  length (lanczos_side n cutoff) = Z.to_nat (n - 1).
Proof. unfold lanczos_side. by rewrite length_fmap, arange1_length. Qed.

Lemma lanczos_side_lookup (n : Z) (cutoff : R) (i : nat) :
  i < Z.to_nat (n - 1) ->
  lanczos_side n cutoff !! i
  = Some (first_factor cutoff (IZR (1 + Z.of_nat i))
          * sigma_factor n (IZR (1 + Z.of_nat i)))%R.
Proof.
  intros Hi. unfold lanczos_side.
  by rewrite list_lookup_fmap, arange1_lookup.
Qed.

Lemma order_positive (window : Z) :
  (1 <= window)%Z -> (1 <= (window - 1) / 2 + 1)%Z.
Proof. intros Hw. assert (0 <= (window - 1) / 2)%Z by (apply Z.div_pos; lia). lia. Qed.

(** For a window of at least one step the function returns, without
    raising, the mirrored side values around the centre [2 * cutoff]. *)
Lemma low_pass_weights_eq (window : Z) (cutoff : R) :
  (1 <= window)%Z ->
  low_pass_weights window cutoff
  = inr (reverse (lanczos_side ((window - 1) / 2 + 1) cutoff)
         ++ (2 * cutoff)%R :: lanczos_side ((window - 1) / 2 + 1) cutoff).
Proof.
  intros Hw. pose proof (order_positive window Hw) as Ho.
  unfold low_pass_weights.
  set (order := ((window - 1) / 2 + 1)%Z) in *.
  replace ((2 * order + 1) / 2)%Z with order
    by (apply Z.div_unique with 1%Z; lia).
  unfold Np.zeros. destruct (Z.ltb_spec (2 * order + 1) 0); [lia|].
  cbn [bind ret].
  set (N := Z.to_nat order).
  assert (HN : 1 <= N) by lia.
  assert (HoN : order = Z.of_nat N) by lia.
  replace (Z.to_nat (2 * order + 1)) with (2 * N + 1) by lia.
  rewrite setitem_inside by (rewrite length_replicate; lia). cbn [bind].
  rewrite zip_with_fmap_same. fold (lanczos_side order cutoff).
  pose proof (lanczos_side_length order cutoff) as Hlen.
  replace (Z.to_nat (order - 1)) with (N - 1) in Hlen by lia.
  fold N.
  replace (order - 1)%Z with (Z.of_nat N - 1)%Z by lia.
  replace (order + 1)%Z with (Z.of_nat N + 1)%Z by lia.
  rewrite set_slice_fits; rewrite length_insert, length_replicate,
    slice_indices_down by done.
  2:{ by rewrite length_fmap, length_seq. }
  cbn [bind].
  rewrite set_slice_fits; rewrite assign_length, length_insert,
    length_replicate, slice_indices_up by done.
  2:{ by rewrite length_seq. }
  cbn [bind ret]. f_equal. unfold Np.get_slice.
  rewrite !assign_length, length_insert, length_replicate,
    slice_indices_inner by done.
  by apply weights_assembly.
Qed.

Lemma low_pass_weights_length (window : Z) (cutoff : R) (ws : list R) :
  (1 <= window)%Z -> low_pass_weights window cutoff = inr ws ->
  Z.of_nat (length ws) = (2 * ((window - 1) / 2 + 1) - 1)%Z.
Proof.
  intros Hw. rewrite low_pass_weights_eq by done. intros [= <-].
  pose proof (order_positive window Hw).
  rewrite length_app, length_reverse. cbn [length].
  rewrite lanczos_side_length. lia.
Qed.

(** Without any check of its arguments, the function returns the empty
    vector for the windows 0 and -1 ... *)
Lemma low_pass_weights_order_zero (window : Z) (cutoff : R) :
  window = 0%Z \/ window = (-1)%Z -> low_pass_weights window cutoff = inr [].
Proof. intros [-> | ->]; reflexivity. Qed.

(** ... and the allocation of a negative number of zeros raises for all
    smaller ones. *)
Lemma low_pass_weights_negative (window : Z) (cutoff : R) :
  (window <= -2)%Z -> low_pass_weights window cutoff = inl ValueError.
Proof.
  intros Hw. unfold low_pass_weights, Np.zeros.
  assert ((window - 1) / 2 < -1)%Z by (apply Z.div_lt_upper_bound; lia).
  destruct (Z.ltb_spec (2 * ((window - 1) / 2 + 1) + 1) 0); [done | lia].
Qed.

(** ** The rolling windows of one series *)

Lemma pad_length (b a : nat) (s : list (option R)) :
  length (Xr.pad b a s) = b + length s + a.
Proof. unfold Xr.pad. rewrite !length_app, !length_replicate. lia. Qed.

Lemma half_window_bounds (L : nat) : 1 <= L -> L / 2 + (L - 1 - L / 2) = L - 1.
Proof.
  intros HL. assert (L / 2 < L); [|lia].
  apply Nat.div_lt; lia.
Qed.

Lemma rolling_construct_series_length (L : nat) (s : list (option R)) :
  1 <= L -> length (Xr.rolling_construct_series L s) = length s.
Proof.
  intros HL. unfold Xr.rolling_construct_series, Xr.sliding_window_view.
  rewrite length_fmap, length_seq, pad_length.
  pose proof (half_window_bounds L HL). lia.
Qed.

Lemma rolling_construct_series_lookup (L : nat) (s : list (option R)) (t : nat) :
  1 <= L -> t < length s ->
  Xr.rolling_construct_series L s !! t
  = Some (take L (drop t (Xr.pad (L / 2) (L - 1 - L / 2) s))).
Proof.
  intros HL Ht. unfold Xr.rolling_construct_series, Xr.sliding_window_view.
  rewrite list_lookup_fmap, lookup_seq_lt; [done|].
  rewrite pad_length. pose proof (half_window_bounds L HL). lia.
Qed.

(** A window that reads no padding is a segment of the series itself. *)
Lemma window_inside (L : nat) (s : list (option R)) (t : nat) :
  1 <= L -> full_window L (length s) t ->
  take L (drop t (Xr.pad (L / 2) (L - 1 - L / 2) s))
  = take L (drop (t - L / 2) s).
Proof.
  intros HL [Hlo Hhi]. pose proof (half_window_bounds L HL) as Hb.
  unfold Xr.pad.
  rewrite drop_app_ge by (rewrite length_replicate; lia).
  rewrite length_replicate, drop_app_le by lia.
  rewrite take_app_le; [done|]. rewrite length_drop. lia.
Qed.

(** Any other window reads a fill value, first or last. *)
Lemma window_outside (L : nat) (s : list (option R)) (t : nat) :
  1 <= L -> t < length s -> ~ full_window L (length s) t ->
  exists k, k < L /\
    take L (drop t (Xr.pad (L / 2) (L - 1 - L / 2) s)) !! k = Some None.
Proof.
  intros HL Ht Hout. pose proof (half_window_bounds L HL) as Hb.
  unfold full_window in Hout.
  destruct (decide (L / 2 <= t)) as [Hlo|Hlo].
  - exists (L - 1). split; [lia|].
    rewrite lookup_take_lt, lookup_drop by lia. unfold Xr.pad.
    rewrite lookup_app_r; rewrite length_replicate; [|lia].
    rewrite lookup_app_r by lia.
    apply lookup_replicate_2. lia.
  - exists 0. split; [lia|].
    rewrite lookup_take_lt, lookup_drop by lia. unfold Xr.pad.
    rewrite lookup_app_l by (rewrite length_replicate; lia).
    apply lookup_replicate_2. lia.
Qed.

(** ** The dot product over a window *)

Lemma foldr_vadd_None (l : list (option R)) :
  None ∈ l -> foldr Xr.vadd (Some 0%R) l = None.
Proof.
  induction l as [|x l IH]; intros Hin.
  - by apply elem_of_nil in Hin.
  - apply elem_of_cons in Hin as [<- | Hin]; [done|].
    simpl. rewrite IH by done. by destruct x.
Qed.

(** One missing value under a weight makes the product missing. *)
Lemma dot_window_None (win : list (option R)) (weights : list R) (k : nat) :
  k < length weights -> win !! k = Some None ->
  Xr.dot_window win weights = None.
Proof.
  intros Hk Hwin. unfold Xr.dot_window. apply foldr_vadd_None.
  destruct (lookup_lt_is_Some_2 weights k Hk) as [w Hw].
  apply list_elem_of_lookup. exists k.
  by rewrite lookup_zip_with, Hwin, Hw.
Qed.

(** On values that are all present it is the sum of the products. *)
Lemma dot_window_present (xs : list R) (weights : list R) :
  Xr.dot_window (Some <$> xs) weights
  = Some (Xr.Rsum (zip_with Rmult xs weights)).
Proof.
  unfold Xr.dot_window, Xr.Rsum. revert weights.
  induction xs as [|x xs IH]; intros [|w ws]; try done.
  csimpl. by rewrite IH.
Qed.

Lemma Rsum_scale (c : R) (weights : list R) :
  Xr.Rsum (zip_with Rmult (replicate (length weights) c) weights)
  = (c * Xr.Rsum weights)%R.
Proof.
  unfold Xr.Rsum. induction weights as [|w ws IH]; simpl; [lra|].
  rewrite IH. lra.
Qed.

(** ** One cell of the rolling filter *)

Lemma filter_series_length (weights : list R) (s : list (option R)) :
  1 <= length weights -> length (filter_series weights s) = length s.
Proof.
  intros HL. unfold filter_series.
  by rewrite length_fmap, rolling_construct_series_length.
Qed.

Lemma filter_series_inside (weights : list R) (s : list (option R)) (t : nat) :
  1 <= length weights -> full_window (length weights) (length s) t ->
  filter_series weights s !! t
  = Some (Xr.dot_window
            (take (length weights) (drop (t - length weights / 2) s))
            weights).
Proof.
  intros HL Hfull. unfold filter_series.
  assert (t < length s) by (destruct Hfull; lia).
  rewrite list_lookup_fmap, rolling_construct_series_lookup by done.
  simpl. by rewrite window_inside.
Qed.

Lemma filter_series_outside (weights : list R) (s : list (option R)) (t : nat) :
  1 <= length weights -> t < length s ->
  ~ full_window (length weights) (length s) t ->
  filter_series weights s !! t = Some None.
Proof.
  intros HL Ht Hout. unfold filter_series.
  rewrite list_lookup_fmap, rolling_construct_series_lookup by done.
  simpl. f_equal.
  destruct (window_outside _ s t HL Ht Hout) as (k & Hk & Hnone).
  by apply dot_window_None with k.
Qed.

(** ** The filter on the whole array *)

Lemma cell_map_cells {A B : Type} (f : A -> B) (da : list (list A)) (i j : nat) :
  cell (Xr.map_cells f da) i j = f <$> cell da i j.
Proof.
  unfold cell, Xr.map_cells. rewrite list_lookup_fmap.
  destruct (da !! i) as [row|]; simpl; [|done]. apply list_lookup_fmap.
Qed.

Lemma map_cells_compose {A B C : Type} (f : A -> B) (g : B -> C)
    (da : list (list A)) :
  Xr.map_cells g (Xr.map_cells f da) = Xr.map_cells (fun x => g (f x)) da.
Proof.
  unfold Xr.map_cells. rewrite <- list_fmap_compose.
  apply list_fmap_ext. intros _ row _. simpl.
  by rewrite <- list_fmap_compose.
Qed.

(** The padded axis is too short for the window exactly when the series
    is empty. *)
Lemma padded_axis_short (L : nat) (s : list (option R)) :
  1 <= L ->
  length (Xr.pad (L / 2) (L - 1 - L / 2) s) < L <-> length s = 0.
Proof.
  intros HL. rewrite pad_length. pose proof (half_window_bounds L HL). lia.
Qed.

(** An array of [T] time steps in every cell, with [T] at least one, has no
    empty series. *)
Lemma time_extent_nonempty (da : list (list (list (option R)))) (T : nat) :
  all_cells (fun s => length s = T) da -> 1 <= T ->
  all_cells (fun s => 1 <= length s) da.
Proof.
  intros Hext HT. unfold all_cells in *.
  eapply Forall_impl; [exact Hext|]. intros row Hrow.
  eapply Forall_impl; [exact Hrow|]. intros s Hs. simpl in Hs. lia.
Qed.

Lemma apply_filter_eq (da : list (list (list (option R)))) (weights : list R) :
  1 <= length weights ->
  all_cells (fun s => 1 <= length s) da ->
  apply_filter da weights = inr (Xr.map_cells (filter_series weights) da).
Proof.
  intros HL Hne. unfold apply_filter, Xr.rolling_construct.
  rewrite decide_False by lia. rewrite decide_False.
  - cbn [bind ret]. f_equal. unfold Xr.dot. by rewrite map_cells_compose.
  - intros (row & Hrow & (s & Hs & Hshort)%Exists_exists)%Exists_exists.
    apply padded_axis_short in Hshort; [|done].
    unfold all_cells in Hne.
    eapply Forall_forall in Hne; [|exact Hrow].
    eapply Forall_forall in Hne; [|exact Hs]. simpl in Hne. lia.
Qed.

(** On an array with an empty time axis the rolling window is refused. *)
Lemma apply_filter_empty_axis (da : list (list (list (option R))))
    (weights : list R) :
  Exists (Exists (fun s => length s = 0)) da ->
  apply_filter da weights = inl ValueError.
Proof.
  intros Hempty. unfold apply_filter, Xr.rolling_construct.
  destruct (decide (length weights = 0)) as [H0|H1]; [done|].
  rewrite decide_True; [done|].
  eapply Exists_impl; [exact Hempty|]. intros row Hrow.
  eapply Exists_impl; [exact Hrow|]. intros s Hs. simpl in *.
  apply padded_axis_short; [lia | done].
Qed.

(** A rolling window of length zero is refused. *)
Lemma apply_filter_empty (da : list (list (list (option R)))) :
  apply_filter da [] = inl ValueError.
Proof. reflexivity. Qed.

Lemma bandpass_variance_empty_axis (da : list (list (list (option R))))
    (hfw lfw : list R) :
  Exists (Exists (fun s => length s = 0)) da ->
  bandpass_variance da hfw lfw = inl ValueError.
Proof.
  intros Hempty. unfold bandpass_variance.
  by rewrite apply_filter_empty_axis.
Qed.

(** ** Difference and variance *)

Lemma sub_map_cells {A : Type} (f g : A -> list (option R)) (da : list (list A)) :
  Xr.sub (Xr.map_cells f da) (Xr.map_cells g da)
  = Xr.map_cells (fun s => zip_with Xr.vsub (f s) (g s)) da.
Proof.
  unfold Xr.sub, Xr.map_cells. rewrite zip_with_fmap_same.
  apply list_fmap_ext. intros _ row _. apply zip_with_fmap_same.
Qed.

Lemma bandpass_variance_eq (da : list (list (list (option R)))) (hfw lfw : list R) :
  1 <= length hfw -> 1 <= length lfw ->
  all_cells (fun s => 1 <= length s) da ->
  bandpass_variance da hfw lfw
  = inr (Xr.map_cells (fun s => Xr.nanvar 0 (bandpass_series hfw lfw s)) da).
Proof.
  intros Hh Hl Hne. unfold bandpass_variance.
  rewrite !apply_filter_eq by done. cbn [bind ret]. f_equal.
  unfold Xr.var. by rewrite sub_map_cells, map_cells_compose.
Qed.

Lemma bandpass_series_length (hfw lfw : list R) (s : list (option R)) :
  1 <= length hfw -> 1 <= length lfw ->
  length (bandpass_series hfw lfw s) = length s.
Proof.
  intros Hh Hl. unfold bandpass_series.
  rewrite length_zip_with, !filter_series_length by done. lia.
Qed.

Lemma bandpass_series_lookup (hfw lfw : list R) (s : list (option R))
    (t : nat) (a b : option R) :
  filter_series hfw s !! t = Some a -> filter_series lfw s !! t = Some b ->
  bandpass_series hfw lfw s !! t = Some (Xr.vsub a b).
Proof.
  intros Ha Hb. unfold bandpass_series. by rewrite lookup_zip_with, Ha, Hb.
Qed.

Lemma present_all_missing (s : list (option R)) :
  (forall t, t < length s -> s !! t = Some None) -> Xr.present s = [].
Proof.
  unfold Xr.present. induction s as [|v s IH]; intros Hs; [done|].
  assert (v = None) as ->.
  { specialize (Hs 0 ltac:(simpl; lia)). by injection Hs. }
  simpl. apply IH. intros t Ht. apply (Hs (S t)). simpl. lia.
Qed.

Lemma present_app (s1 s2 : list (option R)) :
  Xr.present (s1 ++ s2) = Xr.present s1 ++ Xr.present s2.
Proof. unfold Xr.present. apply omap_app. Qed.

Lemma present_replicate_None (n : nat) : Xr.present (replicate n None) = [].
Proof.
  apply present_all_missing. intros t Ht. rewrite length_replicate in Ht.
  by apply lookup_replicate_2.
Qed.

(** No value present: the variance is missing. *)
Lemma nanvar_no_sample (s : list (option R)) :
  Xr.present s = [] -> Xr.nanvar 0 s = None.
Proof. intros H. unfold Xr.nanvar. rewrite H. reflexivity. Qed.

(** One value present: it is its own mean and the variance is zero. *)
Lemma nanvar_one_sample (s : list (option R)) (x : R) :
  Xr.present s = [x] -> Xr.nanvar 0 s = Some 0%R.
Proof.
  intros H. unfold Xr.nanvar. rewrite H.
  rewrite decide_False by (simpl; lia).
  f_equal. unfold Xr.Rsum. simpl. lra.
Qed.

(** With [ddof = 0] the variance is missing for the empty sample only. *)
Lemma nanvar_missing_iff (s : list (option R)) :
  Xr.nanvar 0 s = None <-> length (Xr.present s) = 0.
Proof.
  unfold Xr.nanvar. destruct (decide (length (Xr.present s) <= 0)); split;
    intros; try done; lia.
Qed.

(** ** Cells and shapes *)

Lemma all_cells_cell {A : Type} (P : A -> Prop) (da : list (list A))
    (i j : nat) (x : A) :
  all_cells P da -> cell da i j = Some x -> P x.
Proof.
  unfold all_cells, cell. intros Hall Hc.
  destruct (da !! i) as [row|] eqn:Hrow; [|done].
  eapply Forall_lookup_1 in Hall; [|done].
  by eapply Forall_lookup_1 in Hall.
Qed.

Lemma same_shape_map_cells (f : list (option R) -> list (option R))
    (da : list (list (list (option R)))) :
  (forall s, length (f s) = length s) ->
  same_shape (Xr.map_cells f da) da.
Proof.
  intros Hf. unfold same_shape, Xr.map_cells.
  apply Forall2_fmap_l, Forall_Forall2_diag, Forall_true. intros row.
  apply Forall2_fmap_l, Forall_Forall2_diag, Forall_true. intros s. apply Hf.
Qed.

Lemma all_present_fmap (s : list (option R)) :
  Forall is_Some s -> exists xs : list R, s = Some <$> xs.
Proof.
  induction 1 as [|v s [x ->] _ [xs ->]]; [by exists []|]. by exists (x :: xs).
Qed.

(** A full window over present values yields a present value. *)
Lemma filter_series_inside_present (weights : list R) (xs : list R) (t : nat) :
  1 <= length weights ->
  full_window (length weights) (length xs) t ->
  filter_series weights (Some <$> xs) !! t
  = Some (Some (Xr.Rsum (zip_with Rmult
                  (take (length weights) (drop (t - length weights / 2) xs))
                  weights))).
Proof.
  intros HL Hfull.
  rewrite filter_series_inside by (by rewrite ?length_fmap).
  by rewrite <- fmap_drop, <- fmap_take, dot_window_present.
Qed.

(** A sequence of odd length [2 * m + 1] has [m] steps on either side of a
    full window. *)
Lemma full_window_odd (m T t : nat) :
  full_window (2 * m + 1) T t <-> m <= t /\ t + m < T.
Proof.
  unfold full_window.
  replace ((2 * m + 1) / 2) with m; [lia|].
  apply Nat.div_unique with 1; lia.
Qed.

(** No window fits a series shorter than the weights. *)
Lemma full_window_short (L T t : nat) : 1 <= L -> T < L -> ~ full_window L T t.
Proof.
  intros HL HT [Hlo Hhi]. pose proof (half_window_bounds L HL). lia.
Qed.

(** * The weight generator: verified claims *)

(** C1: for every window of at least one step and every cutoff in
    (0, 1/2], the returned weights have the value [2 * cutoff] at their
    centre, and at distance [k] from the centre, for [k] from 1 to [n - 1]
    with [n = (window - 1) div 2 + 1], on either side the value
    [(sin (2 pi cutoff k) / (pi k)) * (sin (pi k / n) * n / (pi k))]. *)
Theorem low_pass_weights_formula (window : Z) (cutoff : R) :
  (1 <= window)%Z -> (0 < cutoff <= 1 / 2)%R ->
  exists ws : list R,
    low_pass_weights window cutoff = inr ws /\
    let n := ((window - 1) / 2 + 1)%Z in
    ws !! Z.to_nat (n - 1) = Some (2 * cutoff)%R /\
    forall k : Z, (1 <= k <= n - 1)%Z ->
      let wk := (sin (2 * PI * cutoff * IZR k) / (PI * IZR k)
                 * (sin (PI * IZR k / IZR n) * IZR n / (PI * IZR k)))%R in
      ws !! Z.to_nat (n - 1 - k) = Some wk /\
      ws !! Z.to_nat (n - 1 + k) = Some wk.
Proof.
  intros Hw _. pose proof (order_positive window Hw) as Ho.
  eexists. split; [by apply low_pass_weights_eq|].
  set (n := ((window - 1) / 2 + 1)%Z) in *. cbv zeta.
  pose proof (lanczos_side_length n cutoff) as Hlen.
  split.
  - rewrite lookup_app_r; rewrite length_reverse, Hlen; [|lia].
    by rewrite Nat.sub_diag.
  - intros k Hk.
    assert (Hside : lanczos_side n cutoff !! Z.to_nat (k - 1)
                    = Some (first_factor cutoff (IZR k) * sigma_factor n (IZR k))%R).
    { rewrite lanczos_side_lookup by lia. do 4 f_equal; lia. }
    unfold first_factor, sigma_factor in Hside. split.
    + rewrite lookup_app_l by (rewrite length_reverse, Hlen; lia).
      rewrite reverse_lookup by lia. rewrite <- Hside. f_equal. lia.
    + rewrite lookup_app_r; rewrite length_reverse, Hlen; [|lia].
      replace (Z.to_nat (n - 1 + k) - Z.to_nat (n - 1))
        with (S (Z.to_nat (k - 1))) by lia.
      exact Hside.
Qed.

Lemma low_pass_weights_formula_witness :
  exists ws : list R,
    low_pass_weights 50 (1 / 3) = inr ws /\
    let n := ((50 - 1) / 2 + 1)%Z in
    ws !! Z.to_nat (n - 1) = Some (2 * (1 / 3))%R /\
    forall k : Z, (1 <= k <= n - 1)%Z ->
      let wk := (sin (2 * PI * (1 / 3) * IZR k) / (PI * IZR k)
                 * (sin (PI * IZR k / IZR n) * IZR n / (PI * IZR k)))%R in
      ws !! Z.to_nat (n - 1 - k) = Some wk /\
      ws !! Z.to_nat (n - 1 + k) = Some wk.
Proof. apply (low_pass_weights_formula 50 (1 / 3)); [lia | lra]. Defined.

(** C3: for every valid window and cutoff the returned sequence has the
    odd length [2 * order - 1] with [order = (window - 1) div 2 + 1]; this is
    the window parameter itself when that is odd and one less when it is
    even, so the length need not be [window]. *)
Theorem low_pass_weights_odd_length (window : Z) (cutoff : R) :
  (1 <= window)%Z -> (0 < cutoff <= 1 / 2)%R ->
  exists ws : list R,
    low_pass_weights window cutoff = inr ws /\
    let order := ((window - 1) / 2 + 1)%Z in
    Z.of_nat (length ws) = (2 * order - 1)%Z /\
    Z.odd (Z.of_nat (length ws)) = true /\
    (Z.odd window = true -> Z.of_nat (length ws) = window) /\
    (Z.even window = true -> Z.of_nat (length ws) = (window - 1)%Z).
Proof.
  intros Hw _. eexists. split; [by apply low_pass_weights_eq|]. cbv zeta.
  pose proof (low_pass_weights_length window cutoff _ Hw
                (low_pass_weights_eq window cutoff Hw)) as Hlen.
  rewrite Hlen. split; [done|]. split; [|split].
  - replace (2 * ((window - 1) / 2 + 1) - 1)%Z
      with (1 + 2 * ((window - 1) / 2))%Z by lia.
    by rewrite Z.odd_add_mul_2.
  - intros Hodd. apply Z.odd_spec in Hodd as [q ->].
    replace (2 * q + 1 - 1)%Z with (q * 2)%Z by lia.
    rewrite Z.div_mul by done. lia.
  - intros Heven. apply Z.even_spec in Heven as [q ->].
    replace ((2 * q - 1) / 2)%Z with (q - 1)%Z; [lia|].
    apply Z.div_unique with 1%Z; lia.
Qed.

Lemma low_pass_weights_odd_length_witness :
  exists ws : list R,
    low_pass_weights 50 (1 / 10) = inr ws /\
    let order := ((50 - 1) / 2 + 1)%Z in
    Z.of_nat (length ws) = (2 * order - 1)%Z /\
    Z.odd (Z.of_nat (length ws)) = true /\
    (Z.odd 50 = true -> Z.of_nat (length ws) = 50%Z) /\
    (Z.even 50 = true -> Z.of_nat (length ws) = (50 - 1)%Z).
Proof. apply (low_pass_weights_odd_length 50 (1 / 10)); [lia | lra]. Defined.

(** C4: for every valid window and cutoff the returned weights read the
    same from both ends: entry [i] equals entry [len - 1 - i]. *)
Theorem low_pass_weights_symmetric (window : Z) (cutoff : R) :
  (1 <= window)%Z -> (0 < cutoff <= 1 / 2)%R ->
  exists ws : list R,
    low_pass_weights window cutoff = inr ws /\
    forall i : nat, i < length ws ->
      is_Some (ws !! i) /\ ws !! i = ws !! (length ws - 1 - i).
Proof.
  intros Hw _. eexists. split; [by apply low_pass_weights_eq|].
  set (side := lanczos_side _ cutoff).
  set (ws := reverse side ++ (2 * cutoff)%R :: side).
  assert (Hrev : reverse ws = ws).
  { unfold ws. by rewrite reverse_app, reverse_cons, reverse_involutive,
      <- app_assoc. }
  intros i Hi. split; [by apply lookup_lt_is_Some_2|].
  rewrite <- Hrev at 1. rewrite reverse_lookup by done. f_equal. lia.
Qed.

Lemma low_pass_weights_symmetric_witness :
  exists ws : list R,
    low_pass_weights 50 (1 / 3) = inr ws /\
    forall i : nat, i < length ws ->
      is_Some (ws !! i) /\ ws !! i = ws !! (length ws - 1 - i).
Proof. apply (low_pass_weights_symmetric 50 (1 / 3)); [lia | lra]. Defined.

(** C10: for every window of at least one step and every real cutoff the
    function returns a weight sequence and raises nothing; for the windows
    1 and 2 that sequence is the single weight [2 * cutoff]. *)
Theorem low_pass_weights_total (window : Z) (cutoff : R) :
  (1 <= window)%Z ->
  (exists ws : list R, low_pass_weights window cutoff = inr ws) /\
  (window = 1%Z \/ window = 2%Z ->
   low_pass_weights window cutoff = inr [(2 * cutoff)%R]).
Proof.
  intros Hw. split; [eexists; by apply low_pass_weights_eq|].
  intros [-> | ->]; by rewrite low_pass_weights_eq.
Qed.

Lemma low_pass_weights_total_witness :
  (exists ws : list R, low_pass_weights 2 (7 / 10) = inr ws) /\
  (2%Z = 1%Z \/ 2%Z = 2%Z ->
   low_pass_weights 2 (7 / 10) = inr [(2 * (7 / 10))%R]).
Proof. apply (low_pass_weights_total 2 (7 / 10)). lia. Defined.

(** C7, as the program has it: the arguments are not checked and there is
    no error of the function's own.  A window of at least one step yields
    the [2 * order - 1] weights for every real cutoff, inside (0, 1/2) or
    not; the windows 0 and -1 yield the empty sequence; a window of -2 or
    less makes the allocation of the zeros raise [ValueError]. *)
Theorem low_pass_weights_unchecked (window : Z) (cutoff : R) :
  ((1 <= window)%Z ->
   exists ws : list R,
     low_pass_weights window cutoff = inr ws /\
     Z.of_nat (length ws) = (2 * ((window - 1) / 2 + 1) - 1)%Z) /\
  (window = 0%Z \/ window = (-1)%Z -> low_pass_weights window cutoff = inr []) /\
  ((window <= -2)%Z -> low_pass_weights window cutoff = inl ValueError).
Proof.
  split; [|split].
  - intros Hw. eexists. split; [by apply low_pass_weights_eq|].
    eapply low_pass_weights_length; [done|]. by apply low_pass_weights_eq.
  - apply low_pass_weights_order_zero.
  - apply low_pass_weights_negative.
Qed.

Lemma low_pass_weights_unchecked_witness :
  exists ws : list R,
    low_pass_weights 1 (3 / 4) = inr ws /\
    Z.of_nat (length ws) = (2 * ((1 - 1) / 2 + 1) - 1)%Z.
Proof. apply (proj1 (low_pass_weights_unchecked 1 (3 / 4))). lia. Defined.

(** C7 as written fails: a cutoff of 3/4, outside (0, 1/2), and a window of
    0, below 1, are both answered with a weight sequence. *)
Lemma low_pass_weights_no_validation :
  low_pass_weights 1 (3 / 4) = inr [(2 * (3 / 4))%R] /\
  low_pass_weights 0 (1 / 4) = inr [].
Proof. split; reflexivity. Qed.

(** * The rolling filter and the variance: verified claims *)

(** C2: for every array of [T >= 1] time steps and every weight sequence
    of a length [L] that [low_pass_weights] can return, an odd one, the
    filtered array has the extents of the input and every cell is filtered
    on its own.  At each time index [t] with at least [L div 2] steps on
    each side within the time extent the result is the dot product of the
    [L] values centred at [t] with the weights in the same order (the sum
    of the products when those values are present); at every other time
    index it is missing. *)
Theorem apply_filter_windows (da : list (list (list (option R))))
    (weights : list R) (m T : nat) :
  length weights = 2 * m + 1 ->
  all_cells (fun s => length s = T) da -> 1 <= T ->
  exists out : list (list (list (option R))),
    apply_filter da weights = inr out /\
    same_shape out da /\
    forall (i j : nat) (s : list (option R)),
      cell da i j = Some s ->
      exists o : list (option R),
        cell out i j = Some o /\
        forall t : nat, t < length s ->
          let L := length weights in
          let win := take L (drop (t - L / 2) s) in
          (L / 2 <= t /\ t + L / 2 < length s ->
           o !! t = Some (Xr.dot_window win weights) /\
           forall xs : list R, win = Some <$> xs ->
             o !! t = Some (Some (Xr.Rsum (zip_with Rmult xs weights)))) /\
          (~ (L / 2 <= t /\ t + L / 2 < length s) ->
           o !! t = Some None).
Proof.
  intros Hodd Hext HT.
  assert (HL : 1 <= length weights) by lia.
  pose proof (time_extent_nonempty da T Hext HT) as Hne.
  assert (Hhalf : length weights / 2 = m).
  { rewrite Hodd. symmetry. apply Nat.div_unique with 1; lia. }
  eexists. split; [by apply apply_filter_eq|].
  split; [apply same_shape_map_cells; intros; by apply filter_series_length|].
  intros i j s Hs. exists (filter_series weights s).
  split; [by rewrite cell_map_cells, Hs|].
  intros t Ht. cbv zeta. rewrite Hhalf.
  assert (Hfull : full_window (length weights) (length s) t
                  <-> m <= t /\ t + m < length s).
  { rewrite Hodd. apply full_window_odd. }
  split.
  - intros Hin%Hfull.
    pose proof (filter_series_inside weights s t HL Hin) as Hval.
    rewrite Hhalf in Hval.
    split; [done|]. intros xs Hxs. by rewrite Hval, Hxs, dot_window_present.
  - intros Hout. apply filter_series_outside; try done. by rewrite Hfull.
Qed.

Lemma apply_filter_windows_witness :
  exists out : list (list (list (option R))),
    apply_filter [[[Some 1%R; Some 2%R; Some 3%R]]] [1%R; 2%R; 1%R]
    = inr out /\
    same_shape out [[[Some 1%R; Some 2%R; Some 3%R]]] /\
    forall (i j : nat) (s : list (option R)),
      cell [[[Some 1%R; Some 2%R; Some 3%R]]] i j = Some s ->
      exists o : list (option R),
        cell out i j = Some o /\
        forall t : nat, t < length s ->
          let L := length [1%R; 2%R; 1%R] in
          let win := take L (drop (t - L / 2) s) in
          (L / 2 <= t /\ t + L / 2 < length s ->
           o !! t = Some (Xr.dot_window win [1%R; 2%R; 1%R]) /\
           forall xs : list R, win = Some <$> xs ->
             o !! t
             = Some (Some (Xr.Rsum (zip_with Rmult xs [1%R; 2%R; 1%R])))) /\
          (~ (L / 2 <= t /\ t + L / 2 < length s) ->
           o !! t = Some None).
Proof.
  apply (apply_filter_windows
           [[[Some 1%R; Some 2%R; Some 3%R]]] [1%R; 2%R; 1%R] 1 3).
  - reflexivity.
  - repeat constructor.
  - lia.
Defined.

(** C9: on an array of [T >= 1] time steps whose values all equal [c],
    and for every weight sequence (of the positive length a rolling window
    must have), the filter returns [c * sum weights] at every time index
    with a full window and a missing value at every other one. *)
Theorem apply_filter_constant (da : list (list (list (option R))))
    (weights : list R) (c : R) (T : nat) :
  1 <= length weights ->
  all_cells (fun s => s = replicate T (Some c)) da -> 1 <= T ->
  exists out : list (list (list (option R))),
    apply_filter da weights = inr out /\
    forall (i j : nat) (s : list (option R)),
      cell da i j = Some s ->
      exists o : list (option R),
        cell out i j = Some o /\
        forall t : nat, t < length s ->
          (full_window (length weights) (length s) t ->
           o !! t = Some (Some (c * Xr.Rsum weights)%R)) /\
          (~ full_window (length weights) (length s) t ->
           o !! t = Some None).
Proof.
  intros HL Hconst HT.
  assert (Hext : all_cells (fun s : list (option R) => length s = T) da).
  { unfold all_cells in *. eapply Forall_impl; [exact Hconst|].
    intros row Hrow. eapply Forall_impl; [exact Hrow|].
    intros s ->. apply length_replicate. }
  pose proof (time_extent_nonempty da T Hext HT) as Hne.
  eexists. split; [by apply apply_filter_eq|].
  intros i j s Hs. exists (filter_series weights s).
  split; [by rewrite cell_map_cells, Hs|].
  intros t Ht. split; [|intros Hout; by apply filter_series_outside].
  intros Hfull. pose proof Hfull as [Hlo Hhi].
  pose proof (half_window_bounds _ HL) as Hb.
  rewrite filter_series_inside by done.
  rewrite (all_cells_cell _ da i j s Hconst Hs) in *.
  rewrite length_replicate in *.
  rewrite drop_replicate, take_replicate.
  replace (_ `min` _) with (length weights) by lia.
  change (Some c) with (Some c : option R).
  rewrite <- fmap_replicate, dot_window_present. by rewrite Rsum_scale.
Qed.

Lemma apply_filter_constant_witness :
  exists out : list (list (list (option R))),
    apply_filter [[replicate 5 (Some 2%R)]] [1%R; 3%R; 1%R] = inr out /\
    forall (i j : nat) (s : list (option R)),
      cell [[replicate 5 (Some 2%R)]] i j = Some s ->
      exists o : list (option R),
        cell out i j = Some o /\
        forall t : nat, t < length s ->
          (full_window (length [1%R; 3%R; 1%R]) (length s) t ->
           o !! t = Some (Some (2 * Xr.Rsum [1%R; 3%R; 1%R])%R)) /\
          (~ full_window (length [1%R; 3%R; 1%R]) (length s) t ->
           o !! t = Some None).
Proof.
  apply (apply_filter_constant [[replicate 5 (Some 2%R)]]
           [1%R; 3%R; 1%R] 2 5).
  - simpl. lia.
  - repeat constructor.
  - lia.
Defined.

(** A series shorter than one of the two weight sequences has no
    band-passed value at all, and so no variance. *)
Lemma bandpass_series_short (hfw lfw : list R) (s : list (option R)) :
  1 <= length hfw -> 1 <= length lfw ->
  length s < length hfw `max` length lfw ->
  Xr.nanvar 0 (bandpass_series hfw lfw s) = None.
Proof.
  intros Hh Hl Hshort. apply nanvar_no_sample, present_all_missing.
  intros t Ht. rewrite bandpass_series_length in Ht by done.
  destruct (lookup_lt_is_Some_2 (filter_series hfw s) t) as [a Ha];
    [by rewrite filter_series_length|].
  destruct (lookup_lt_is_Some_2 (filter_series lfw s) t) as [b Hb];
    [by rewrite filter_series_length|].
  rewrite (bandpass_series_lookup _ _ _ _ _ _ Ha Hb). f_equal.
  destruct (decide (length s < length lfw)) as [Hlt|Hge].
  - rewrite filter_series_outside in Hb
      by (try apply full_window_short; done).
    injection Hb as <-. by destruct a.
  - rewrite filter_series_outside in Ha
      by (try apply full_window_short; try done; lia).
    by injection Ha as <-.
Qed.

Lemma empty_axis_cell (da : list (list (list (option R)))) (i j : nat) :
  all_cells (fun s => length s = 0) da -> is_Some (cell da i j) ->
  Exists (Exists (fun s => length s = 0)) da.
Proof.
  intros Hext [s Hs]. unfold cell in Hs.
  destruct (da !! i) as [row|] eqn:Hrow; [|done].
  apply Exists_exists. exists row.
  split; [by apply list_elem_of_lookup_2 with i|].
  apply Exists_exists. exists s.
  split; [by apply list_elem_of_lookup_2 with j|].
  by apply (all_cells_cell _ da i j s Hext); unfold cell; rewrite Hrow.
Qed.

(** C8, as the program has it: when the time extent [T] of the array is
    smaller than the longer of the two weight sequences and at least one,
    the variance map is returned, not an error, it has a cell for every
    cell of the array, and every cell of it is missing.  With no time step
    at all the rolling window raises [ValueError]. *)
Theorem bandpass_variance_short (da : list (list (list (option R))))
    (hfw lfw : list R) (T : nat) :
  1 <= length hfw -> 1 <= length lfw ->
  all_cells (fun s => length s = T) da ->
  T < length hfw `max` length lfw ->
  (1 <= T ->
   exists vm : list (list (option R)),
     bandpass_variance da hfw lfw = inr vm /\
     forall i j : nat, cell vm i j = (fun _ => None) <$> cell da i j) /\
  (T = 0 -> (exists i j : nat, is_Some (cell da i j)) ->
   bandpass_variance da hfw lfw = inl ValueError).
Proof.
  intros Hh Hl Hext Hshort. split.
  - intros HT. pose proof (time_extent_nonempty da T Hext HT) as Hne.
    eexists. split; [by apply bandpass_variance_eq|].
    intros i j. rewrite cell_map_cells.
    destruct (cell da i j) as [s|] eqn:Hs; [|done]. simpl. f_equal.
    apply bandpass_series_short; try done.
    by rewrite (all_cells_cell _ da i j s Hext Hs).
  - intros -> (i & j & Hcell). apply bandpass_variance_empty_axis.
    by apply empty_axis_cell with i j.
Qed.

Lemma bandpass_variance_short_witness :
  (1 <= 2 ->
   exists vm : list (list (option R)),
     bandpass_variance [[[Some 1%R; Some 2%R]]] [1%R; 1%R; 1%R] [1%R]
     = inr vm /\
     forall i j : nat,
       cell vm i j = (fun _ => None) <$> cell [[[Some 1%R; Some 2%R]]] i j) /\
  (2 = 0 -> (exists i j : nat, is_Some (cell [[[Some 1%R; Some 2%R]]] i j)) ->
   bandpass_variance [[[Some 1%R; Some 2%R]]] [1%R; 1%R; 1%R] [1%R]
   = inl ValueError).
Proof.
  apply (bandpass_variance_short
           [[[Some 1%R; Some 2%R]]] [1%R; 1%R; 1%R] [1%R] 2).
  - simpl. lia.
  - simpl. lia.
  - repeat constructor.
  - simpl. lia.
Defined.

(** C8 as written fails on an array with no time step, whose time extent
    0 is smaller than any weight sequence: with the single weights of the
    window 1 the variance reduction raises instead of returning a map of
    missing values, and so does [main] with its 49 weights. *)
Lemma bandpass_variance_empty_time_axis :
  low_pass_weights 1 (1 / 3) = inr [(2 * (1 / 3))%R] /\
  low_pass_weights 1 (1 / 10) = inr [(2 * (1 / 10))%R] /\
  0 < length [(2 * (1 / 3))%R] `max` length [(2 * (1 / 10))%R] /\
  bandpass_variance [[[]]] [(2 * (1 / 3))%R] [(2 * (1 / 10))%R]
  = inl ValueError /\
  main [[[]]] = inl ValueError.
Proof.
  split; [reflexivity|]. split; [reflexivity|]. split; [simpl; lia|].
  split; [reflexivity|].
  unfold main, tc_seed_index. rewrite !low_pass_weights_eq by lia.
  cbn [bind]. apply bandpass_variance_empty_axis. repeat constructor.
Qed.

(** C6, as the program has it: the weights built from the parameter
    [window] have length [2 * ((window - 1) div 2) + 1], so on an array of
    [T >= 1] time steps without missing values the filtered array has the
    extents of the input and is missing exactly at the
    [(window - 1) div 2] time steps of each end (everywhere when the
    series is that short); the marker is the missing value, not zero. *)
Theorem filtered_margins (window : Z) (cutoff : R)
    (da : list (list (list (option R)))) (T : nat) :
  (1 <= window)%Z ->
  all_cells (Forall is_Some) da ->
  all_cells (fun s => length s = T) da -> 1 <= T ->
  exists (ws : list R) (out : list (list (list (option R)))),
    low_pass_weights window cutoff = inr ws /\
    apply_filter da ws = inr out /\
    same_shape out da /\
    forall (i j : nat) (s : list (option R)),
      cell da i j = Some s ->
      exists o : list (option R),
        cell out i j = Some o /\
        forall t : nat, t < length s ->
          let m := Z.to_nat ((window - 1) / 2) in
          o !! t = Some None <-> t < m \/ length s <= t + m.
Proof.
  intros Hw Hpresent Hext HT.
  pose proof (order_positive window Hw) as Ho.
  pose proof (time_extent_nonempty da T Hext HT) as Hne.
  eexists. eexists. split; [by apply low_pass_weights_eq|].
  set (ws := reverse _ ++ _ :: _).
  set (m := Z.to_nat ((window - 1) / 2)).
  assert (Hlen : length ws = 2 * m + 1).
  { pose proof (low_pass_weights_length window cutoff ws Hw
                  (low_pass_weights_eq window cutoff Hw)). lia. }
  assert (HL : 1 <= length ws) by lia.
  split; [by apply apply_filter_eq|].
  split; [apply same_shape_map_cells; intros; by apply filter_series_length|].
  intros i j s Hs. exists (filter_series ws s).
  split; [by rewrite cell_map_cells, Hs|].
  intros t Ht. cbv zeta.
  destruct (decide (full_window (length ws) (length s) t)) as [Hfull|Hout].
  - destruct (all_present_fmap s (all_cells_cell _ da i j s Hpresent Hs))
      as [xs ->].
    rewrite length_fmap in *.
    rewrite filter_series_inside_present by done.
    rewrite Hlen in Hfull. apply full_window_odd in Hfull.
    split; [done | lia].
  - rewrite filter_series_outside by done.
    rewrite Hlen, full_window_odd in Hout. split; [lia | done].
Qed.

Lemma filtered_margins_witness :
  exists (ws : list R) (out : list (list (list (option R)))),
    low_pass_weights 50 (1 / 3) = inr ws /\
    apply_filter [[replicate 100 (Some 1%R)]] ws = inr out /\
    same_shape out [[replicate 100 (Some 1%R)]] /\
    forall (i j : nat) (s : list (option R)),
      cell [[replicate 100 (Some 1%R)]] i j = Some s ->
      exists o : list (option R),
        cell out i j = Some o /\
        forall t : nat, t < length s ->
          let m := Z.to_nat ((50 - 1) / 2) in
          o !! t = Some None <-> t < m \/ length s <= t + m.
Proof.
  apply (filtered_margins 50 (1 / 3) [[replicate 100 (Some 1%R)]] 100).
  - lia.
  - simpl. repeat econstructor.
  - repeat constructor.
  - lia.
Defined.

(** C6 as written fails: the window parameter 2 gives one weight, and the
    filter then leaves no time step missing, where the claim has
    [2 div 2 = 1] step missing at each end. *)
Lemma filtered_margins_even_window :
  (0 < 2 / 2)%Z /\
  low_pass_weights 2 (1 / 4) = inr [(2 * (1 / 4))%R] /\
  apply_filter [[[Some 1%R; Some 1%R; Some 1%R]]] [(2 * (1 / 4))%R]
  = inr [[[Some (1 * (2 * (1 / 4)) + 0)%R;
           Some (1 * (2 * (1 / 4)) + 0)%R;
           Some (1 * (2 * (1 / 4)) + 0)%R]]].
Proof. split; [reflexivity|]. split; reflexivity. Qed.

(** A series with one present value and missing ones around it. *)
Lemma present_single (s : list (option R)) (m : nat) (x : R) :
  s !! m = Some (Some x) ->
  (forall t, t < length s -> t <> m -> s !! t = Some None) ->
  Xr.present s = [x].
Proof.
  intros Hm Hrest. pose proof (lookup_lt_Some _ _ _ Hm) as Hlt.
  rewrite <- (take_drop_middle s m (Some x) Hm).
  rewrite present_app, (present_all_missing (take m s)).
  2:{ intros t Ht. rewrite length_take in Ht.
      rewrite lookup_take_lt by lia. apply Hrest; lia. }
  change (Xr.present (Some x :: drop (S m) s))
    with (x :: Xr.present (drop (S m) s)).
  rewrite (present_all_missing (drop (S m) s)); [done|].
  intros t Ht. rewrite length_drop in Ht.
  rewrite lookup_drop. apply Hrest; lia.
Qed.

(** Two weight sequences as long as the series leave the band-passed
    series one value, at its middle. *)
Lemma bandpass_series_single (hfw lfw : list R) (xs : list R) (m : nat) :
  length hfw = 2 * m + 1 -> length lfw = 2 * m + 1 ->
  length xs = 2 * m + 1 ->
  exists x : R, Xr.present (bandpass_series hfw lfw (Some <$> xs)) = [x].
Proof.
  intros Hh Hl Hx.
  assert (Hfull : forall t, full_window (2 * m + 1) (2 * m + 1) t <-> t = m).
  { intros t. rewrite full_window_odd. lia. }
  pose proof (filter_series_inside_present hfw xs m) as Ha.
  pose proof (filter_series_inside_present lfw xs m) as Hb.
  rewrite Hh, Hx in Ha. rewrite Hl, Hx in Hb.
  specialize (Ha ltac:(lia) ltac:(by apply Hfull)).
  specialize (Hb ltac:(lia) ltac:(by apply Hfull)).
  pose proof (bandpass_series_lookup _ _ _ _ _ _ Ha Hb) as Hm.
  eexists. apply present_single with m; [exact Hm|].
  intros t Ht Hne.
  rewrite bandpass_series_length, length_fmap in Ht by lia.
  rewrite (bandpass_series_lookup _ _ _ _ None None); [done| |];
    (rewrite filter_series_outside; [done | lia | by rewrite length_fmap |]);
    rewrite length_fmap, ?Hh, ?Hl, Hx, Hfull; done.
Qed.

(** C5, as the program has it: the variance is taken with no correction
    of the degrees of freedom, so a cell of the variance map is missing
    exactly when its band-passed series has no value present, and it is 0
    when one value is present.  In particular an array without missing
    values whose time extent is the length [2 * order - 1] of the weights
    has one band-passed time index and a variance map of zeros. *)
Theorem variance_of_few_samples :
  (forall (bandpass : list (list (list (option R)))) (i j : nat)
          (s : list (option R)),
     cell bandpass i j = Some s ->
     (length (Xr.present s) = 0 -> cell (Xr.var bandpass) i j = Some None) /\
     (length (Xr.present s) = 1 ->
      cell (Xr.var bandpass) i j = Some (Some 0%R)) /\
     (cell (Xr.var bandpass) i j = Some None -> length (Xr.present s) = 0)) /\
  (forall (window : Z) (cut_hf cut_lf : R)
          (da : list (list (list (option R)))),
     (1 <= window)%Z ->
     all_cells (fun s => Forall is_Some s /\
                         Z.of_nat (length s)
                         = (2 * ((window - 1) / 2 + 1) - 1)%Z) da ->
     exists vm : list (list (option R)),
       tc_seed_index window cut_hf cut_lf da = inr vm /\
       forall i j : nat,
         cell vm i j = (fun _ => Some 0%R) <$> cell da i j).
Proof.
  split.
  - intros bandpass i j s Hs. unfold Xr.var.
    rewrite cell_map_cells, Hs. simpl. split; [|split].
    + intros H0. f_equal. by apply nanvar_missing_iff.
    + intros H1. f_equal.
      destruct (Xr.present s) as [|x [|y l]] eqn:Hp; try done.
      by apply nanvar_one_sample with x.
    + intros [= Hnone]. by apply nanvar_missing_iff.
  - intros window ch cl da Hw Hda.
    pose proof (order_positive window Hw) as Ho.
    unfold tc_seed_index.
    rewrite !low_pass_weights_eq by done. cbn [bind].
    set (hfw := reverse _ ++ _ :: _). set (lfw := reverse _ ++ _ :: _).
    set (m := Z.to_nat ((window - 1) / 2)).
    assert (Hh : length hfw = 2 * m + 1).
    { pose proof (low_pass_weights_length window ch hfw Hw
                    (low_pass_weights_eq window ch Hw)). lia. }
    assert (Hl : length lfw = 2 * m + 1).
    { pose proof (low_pass_weights_length window cl lfw Hw
                    (low_pass_weights_eq window cl Hw)). lia. }
    assert (Hne : all_cells (fun s : list (option R) => 1 <= length s) da).
    { unfold all_cells in *. eapply Forall_impl; [exact Hda|].
      intros row Hrow. eapply Forall_impl; [exact Hrow|].
      intros s [_ Hs]. simpl. lia. }
    eexists. split; [apply bandpass_variance_eq; done || lia|].
    intros i j. rewrite cell_map_cells.
    destruct (cell da i j) as [s|] eqn:Hs; [|done]. simpl. f_equal.
    destruct (all_cells_cell _ da i j s Hda Hs) as [Hp Hlen].
    destruct (all_present_fmap s Hp) as [xs ->].
    rewrite length_fmap in Hlen.
    destruct (bandpass_series_single hfw lfw xs m) as [x Hx]; [done|done|lia|].
    by apply nanvar_one_sample with x.
Qed.

Lemma variance_of_few_samples_witness :
  ((length (Xr.present [None; Some 1%R; None]) = 0 ->
    cell (Xr.var [[[None; Some 1%R; None]]]) 0 0 = Some None) /\
   (length (Xr.present [None; Some 1%R; None]) = 1 ->
    cell (Xr.var [[[None; Some 1%R; None]]]) 0 0 = Some (Some 0%R)) /\
   (cell (Xr.var [[[None; Some 1%R; None]]]) 0 0 = Some None ->
    length (Xr.present [None; Some 1%R; None]) = 0)) /\
  (exists vm : list (list (option R)),
     tc_seed_index 3 (1 / 3) (1 / 10) [[[Some 1%R; Some 2%R; Some 3%R]]]
     = inr vm /\
     forall i j : nat,
       cell vm i j
       = (fun _ => Some 0%R) <$> cell [[[Some 1%R; Some 2%R; Some 3%R]]] i j).
Proof.
  split.
  - apply (proj1 variance_of_few_samples [[[None; Some 1%R; None]]] 0 0).
    reflexivity.
  - apply (proj2 variance_of_few_samples 3%Z (1 / 3)%R (1 / 10)%R
             [[[Some 1%R; Some 2%R; Some 3%R]]]).
    + lia.
    + repeat econstructor.
Defined.

(** C5 as written fails: a cell with one present band-passed value, fewer
    than two, has the variance 0 and not a missing one; and the program
    run on a single time step with a window of one step, which leaves
    one band-passed time index, returns a variance map of zeros. *)
Lemma variance_of_one_sample :
  length (Xr.present [None; Some 1%R; None]) = 1 /\
  Xr.var [[[None; Some 1%R; None]]]
  = [[Some (((1 - (1 + 0) / 1) * (1 - (1 + 0) / 1) + 0) / 1)%R]] /\
  (((1 - (1 + 0) / 1) * (1 - (1 + 0) / 1) + 0) / 1)%R = 0%R /\
  exists v : R,
    tc_seed_index 1 (1 / 3) (1 / 10) [[[Some 1%R]]] = inr [[Some v]].
Proof.
  split; [reflexivity|]. split; [reflexivity|]. split; [lra|].
  eexists. reflexivity.
Qed.

(** * Further properties of the weight generator *)

(** The function reads its window only through [order], and an even
    window has the order of the odd window below it. *)
Lemma order_even_window (m : Z) :
  ((2 * m - 1) / 2 + 1 = (2 * m - 1 - 1) / 2 + 1)%Z.
Proof.
  replace (2 * m - 1 - 1)%Z with ((m - 1) * 2)%Z by lia.
  rewrite Z.div_mul by done. f_equal.
  symmetry. apply Z.div_unique with 1%Z; lia.
Qed.

(** X1: an even window [2 * m] gives exactly the weights (or the error) of
    the odd window [2 * m - 1]. *)
Theorem low_pass_weights_even_window (m : Z) (cutoff : R) :
  low_pass_weights (2 * m) cutoff = low_pass_weights (2 * m - 1) cutoff.
Proof.
  unfold low_pass_weights. by rewrite (order_even_window m).
Qed.

Lemma lanczos_side_ext (n : Z) (cutoff : R) (f : R -> R) :
  (forall k : Z, (1 <= k <= n - 1)%Z ->
     (first_factor cutoff (IZR k) * sigma_factor n (IZR k))%R = f (IZR k)) ->
  lanczos_side n cutoff = f <$> Np.arange1 n.
Proof.
  intros Hf. unfold lanczos_side, Np.arange1.
  rewrite <- !list_fmap_compose. apply list_fmap_ext.
  intros i x Hx. apply lookup_seq in Hx as [-> Hi]. simpl. apply Hf. lia.
Qed.

Lemma fmap_const_replicate {A B : Type} (b : B) (l : list A) :
  (fun _ => b) <$> l = replicate (length l) b.
Proof. induction l as [|x l IH]; csimpl; [done|]. by rewrite IH. Qed.

Lemma reverse_replicate {A : Type} (n : nat) (x : A) :
  reverse (replicate n x) = replicate n x.
Proof.
  apply list_eq. intros i. destruct (decide (i < n)) as [Hi|Hi].
  - rewrite reverse_lookup by (by rewrite length_replicate).
    rewrite length_replicate, !lookup_replicate_2 by lia. done.
  - rewrite !lookup_ge_None_2
      by (rewrite ?length_reverse, length_replicate; lia).
    done.
Qed.

(** X3: at the cutoff 0 every weight is 0. *)
Theorem low_pass_weights_zero_cutoff (window : Z) :
  (1 <= window)%Z ->
  low_pass_weights window 0
  = inr (replicate (Z.to_nat (2 * ((window - 1) / 2) + 1)) 0%R).
Proof.
  intros Hw. rewrite low_pass_weights_eq by done.
  pose proof (order_positive window Hw) as Ho.
  set (n := ((window - 1) / 2 + 1)%Z) in *.
  rewrite (lanczos_side_ext n 0 (fun _ => 0%R)).
  - rewrite fmap_const_replicate, arange1_length, reverse_replicate.
    replace (2 * 0)%R with 0%R by lra.
    change (0%R :: replicate ?k 0%R) with (replicate (S k) 0%R).
    rewrite <- replicate_add. f_equal. f_equal. lia.
  - intros k Hk. unfold first_factor.
    replace (2 * PI * 0 * IZR k)%R with 0%R by lra.
    rewrite sin_0. unfold Rdiv. lra.
Qed.

Lemma low_pass_weights_zero_cutoff_witness :
  low_pass_weights 50 0
  = inr (replicate (Z.to_nat (2 * ((50 - 1) / 2) + 1)) 0%R).
Proof. apply (low_pass_weights_zero_cutoff 50). lia. Defined.

(** X4: the weights are odd in the cutoff: negating the cutoff negates
    every weight. *)
Theorem low_pass_weights_negated_cutoff (window : Z) (cutoff : R) :
  (1 <= window)%Z ->
  exists ws : list R,
    low_pass_weights window cutoff = inr ws /\
    low_pass_weights window (- cutoff) = inr (Ropp <$> ws).
Proof.
  intros Hw. eexists. split; [by apply low_pass_weights_eq|].
  rewrite low_pass_weights_eq by done. f_equal.
  set (n := ((window - 1) / 2 + 1)%Z).
  rewrite fmap_app, fmap_reverse, fmap_cons.
  assert (Hside : lanczos_side n (- cutoff) = Ropp <$> lanczos_side n cutoff).
  { unfold lanczos_side. rewrite <- list_fmap_compose.
    apply list_fmap_ext. intros _ k _. simpl. unfold first_factor.
    replace (2 * PI * - cutoff * k)%R with (- (2 * PI * cutoff * k))%R by lra.
    rewrite sin_neg. unfold Rdiv. lra. }
  rewrite Hside. do 2 f_equal. lra.
Qed.

Lemma low_pass_weights_negated_cutoff_witness :
  exists ws : list R,
    low_pass_weights 50 (1 / 3) = inr ws /\
    low_pass_weights 50 (- (1 / 3)) = inr (Ropp <$> ws).
Proof. apply (low_pass_weights_negated_cutoff 50 (1 / 3)). lia. Defined.






(** * Further properties of the pipeline *)

Lemma present_lookup (s : list (option R)) (t : nat) (x : R) :
  s !! t = Some (Some x) -> x ∈ Xr.present s.
Proof.
  intros Ht. unfold Xr.present. apply list_elem_of_omap.
  exists (Some x). split; [|done]. by apply list_elem_of_lookup_2 with t.
Qed.

Lemma present_elem (s : list (option R)) (x : R) :
  x ∈ Xr.present s -> exists t : nat, s !! t = Some (Some x).
Proof.
  unfold Xr.present. intros (v & Hv & ->)%list_elem_of_omap.
  by apply list_elem_of_lookup_1.
Qed.

Lemma nanvar_present_sample (s : list (option R)) (t : nat) (x : R) :
  s !! t = Some (Some x) -> exists v : R, Xr.nanvar 0 s = Some v.
Proof.
  intros Ht. apply present_lookup in Ht. unfold Xr.nanvar.
  destruct (Xr.present s) as [|y l]; [by apply elem_of_nil in Ht|].
  rewrite decide_False by (simpl; lia). by eexists.
Qed.

(** With weights as long as each other, of odd length, the middle of a
    long enough series without missing values is band-passed. *)
Lemma bandpass_series_middle (hfw lfw : list R) (xs : list R) (m : nat) :
  length hfw = 2 * m + 1 -> length lfw = 2 * m + 1 ->
  2 * m + 1 <= length xs ->
  exists x : R, bandpass_series hfw lfw (Some <$> xs) !! m = Some (Some x).
Proof.
  intros Hh Hl Hx.
  pose proof (filter_series_inside_present hfw xs m) as Ha.
  pose proof (filter_series_inside_present lfw xs m) as Hb.
  rewrite Hh in Ha. rewrite Hl in Hb.
  specialize (Ha ltac:(lia) ltac:(apply full_window_odd; lia)).
  specialize (Hb ltac:(lia) ltac:(apply full_window_odd; lia)).
  eexists. exact (bandpass_series_lookup _ _ _ _ _ _ Ha Hb).
Qed.

Lemma low_pass_weights_nat_length (window : Z) (cutoff : R) :
  (1 <= window)%Z ->
  exists ws : list R,
    low_pass_weights window cutoff = inr ws /\
    length ws = 2 * Z.to_nat ((window - 1) / 2) + 1.
Proof.
  intros Hw. pose proof (order_positive window Hw).
  eexists. split; [by apply low_pass_weights_eq|].
  pose proof (low_pass_weights_length window cutoff _ Hw
                (low_pass_weights_eq window cutoff Hw)). lia.
Qed.

(** The pipeline for a window of at least one step on an array without an
    empty series, cell by cell. *)
Lemma tc_seed_index_eq (window : Z) (cut_hf cut_lf : R)
    (da : list (list (list (option R)))) :
  (1 <= window)%Z ->
  all_cells (fun s => 1 <= length s) da ->
  exists hfw lfw : list R,
    length hfw = 2 * Z.to_nat ((window - 1) / 2) + 1 /\
    length lfw = 2 * Z.to_nat ((window - 1) / 2) + 1 /\
    tc_seed_index window cut_hf cut_lf da
    = inr (Xr.map_cells
             (fun s => Xr.nanvar 0 (bandpass_series hfw lfw s)) da).
Proof.
  intros Hw Hne. unfold tc_seed_index.
  destruct (low_pass_weights_nat_length window cut_hf Hw) as (hfw & -> & Hh).
  destruct (low_pass_weights_nat_length window cut_lf Hw) as (lfw & -> & Hl).
  cbn [bind]. exists hfw, lfw. split; [done|]. split; [done|].
  apply bandpass_variance_eq; done || lia.
Qed.

(** The only error of the weight generator is the [ValueError] of the
    allocation. *)
Lemma low_pass_weights_error (window : Z) (cutoff : R) (e : exn) :
  low_pass_weights window cutoff = inl e -> e = ValueError.
Proof.
  destruct (decide (1 <= window)%Z) as [Hw|Hw].
  - by rewrite low_pass_weights_eq.
  - destruct (decide (window <= -2)%Z) as [Hneg|Hzero].
    + rewrite low_pass_weights_negative by done. by intros [= <-].
    + by rewrite low_pass_weights_order_zero by lia.
Qed.

(** The pipeline on an array with an empty time axis. *)
Lemma tc_seed_index_empty_axis (window : Z) (cut_hf cut_lf : R)
    (da : list (list (list (option R)))) :
  Exists (Exists (fun s => length s = 0)) da ->
  tc_seed_index window cut_hf cut_lf da = inl ValueError.
Proof.
  intros Hempty. unfold tc_seed_index.
  destruct (low_pass_weights window cut_hf) as [e|hfw] eqn:Hhf; cbn [bind].
  { by rewrite (low_pass_weights_error _ _ _ Hhf). }
  destruct (low_pass_weights window cut_lf) as [e|lfw] eqn:Hlf; cbn [bind].
  { by rewrite (low_pass_weights_error _ _ _ Hlf). }
  by apply bandpass_variance_empty_axis.
Qed.

Lemma nanvar_bandpass_missing_iff (hfw lfw : list R) (s : list (option R))
    (m : nat) :
  length hfw = 2 * m + 1 -> length lfw = 2 * m + 1 -> Forall is_Some s ->
  Xr.nanvar 0 (bandpass_series hfw lfw s) = None <-> length s < 2 * m + 1.
Proof.
  intros Hh Hl Hp.
  destruct (decide (length s < 2 * m + 1)) as [Hshort|Hlong].
  - by rewrite bandpass_series_short by lia.
  - destruct (all_present_fmap s Hp) as [xs ->].
    rewrite length_fmap in *.
    destruct (bandpass_series_middle hfw lfw xs m) as [x Hx]; [done|done|lia|].
    destruct (nanvar_present_sample _ _ _ Hx) as [v ->].
    split; [done | lia].
Qed.

(** X6: the pipeline of [main] for a window parameter returns a variance
    map, with a cell for each cell of the input, when the window is at
    least one step and the array has [T >= 1] time steps.  It raises
    [ValueError] for every smaller window (from the rolling window of
    length zero for 0 and -1, from the allocation of the weights below)
    and, whatever the window, on an array with an empty time axis. *)
Theorem tc_seed_index_window (window : Z) (cut_hf cut_lf : R)
    (da : list (list (list (option R)))) (T : nat) :
  ((1 <= window)%Z -> all_cells (fun s => length s = T) da -> 1 <= T ->
   exists vm : list (list (option R)),
     tc_seed_index window cut_hf cut_lf da = inr vm /\
     forall i j : nat, is_Some (cell vm i j) <-> is_Some (cell da i j)) /\
  ((window <= 0)%Z -> tc_seed_index window cut_hf cut_lf da = inl ValueError) /\
  (Exists (Exists (fun s => length s = 0)) da ->
   tc_seed_index window cut_hf cut_lf da = inl ValueError).
Proof.
  split; [|split].
  - intros Hw Hext HT.
    destruct (tc_seed_index_eq window cut_hf cut_lf da Hw
                (time_extent_nonempty da T Hext HT))
      as (hfw & lfw & _ & _ & ->).
    eexists. split; [done|].
    intros i j. rewrite cell_map_cells. apply fmap_is_Some.
  - intros Hw. unfold tc_seed_index.
    destruct (decide (window <= -2)%Z) as [Hneg|Hzero].
    + by rewrite low_pass_weights_negative.
    + rewrite !low_pass_weights_order_zero by lia. reflexivity.
  - apply tc_seed_index_empty_axis.
Qed.

Lemma tc_seed_index_window_witness :
  (exists vm : list (list (option R)),
     tc_seed_index 50 (1 / 3) (1 / 10) [[[Some 1%R]]] = inr vm /\
     forall i j : nat,
       is_Some (cell vm i j) <-> is_Some (cell [[[Some 1%R]]] i j)) /\
  tc_seed_index 0 (1 / 3) (1 / 10) [[[Some 1%R]]] = inl ValueError /\
  tc_seed_index 50 (1 / 3) (1 / 10) [[[]]] = inl ValueError.
Proof.
  split; [|split].
  - apply (proj1 (tc_seed_index_window 50 (1 / 3) (1 / 10)
                    [[[Some 1%R]]] 1)).
    + lia.
    + repeat constructor.
    + lia.
  - apply (proj1 (proj2 (tc_seed_index_window 0 (1 / 3) (1 / 10)
                           [[[Some 1%R]]] 1))).
    lia.
  - apply (proj2 (proj2 (tc_seed_index_window 50 (1 / 3) (1 / 10)
                           [[[]]] 0))).
    repeat constructor.
Defined.

(** X7: on an array of [T >= 1] time steps, a cell without missing values
    has a missing variance exactly when the series has fewer time steps
    than the weights, [2 * ((window - 1) div 2) + 1]. *)
Theorem tc_seed_index_missing_iff (window : Z) (cut_hf cut_lf : R)
    (da : list (list (list (option R)))) (T : nat) :
  (1 <= window)%Z ->
  all_cells (fun s => length s = T) da -> 1 <= T ->
  exists vm : list (list (option R)),
    tc_seed_index window cut_hf cut_lf da = inr vm /\
    forall (i j : nat) (s : list (option R)),
      cell da i j = Some s -> Forall is_Some s ->
      exists v : option R,
        cell vm i j = Some v /\
        (v = None <-> (Z.of_nat (length s) < 2 * ((window - 1) / 2) + 1)%Z).
Proof.
  intros Hw Hext HT. pose proof (order_positive window Hw) as Ho.
  destruct (tc_seed_index_eq window cut_hf cut_lf da Hw
              (time_extent_nonempty da T Hext HT))
    as (hfw & lfw & Hh & Hl & ->).
  eexists. split; [done|].
  intros i j s Hs Hp. rewrite cell_map_cells, Hs. simpl.
  eexists. split; [done|].
  rewrite (nanvar_bandpass_missing_iff hfw lfw s _ Hh Hl Hp). lia.
Qed.

Lemma tc_seed_index_missing_iff_witness :
  exists vm : list (list (option R)),
    tc_seed_index 3 (1 / 3) (1 / 10) [[[Some 1%R; Some 2%R]]] = inr vm /\
    forall (i j : nat) (s : list (option R)),
      cell [[[Some 1%R; Some 2%R]]] i j = Some s -> Forall is_Some s ->
      exists v : option R,
        cell vm i j = Some v /\
        (v = None <-> (Z.of_nat (length s) < 2 * ((3 - 1) / 2) + 1)%Z).
Proof.
  apply (tc_seed_index_missing_iff 3 (1 / 3) (1 / 10)
           [[[Some 1%R; Some 2%R]]] 2).
  - lia.
  - repeat constructor.
  - lia.
Defined.

(** X8: [main], with its window of 50 steps and so 49 weights, on an
    array of [T] time steps: for [T >= 1] it raises nothing, its variance
    map has a cell for each cell of the input, and a cell without missing
    values has a missing variance exactly when [T < 49]; for [T = 0] the
    rolling window raises [ValueError]. *)
Theorem main_outcome (daily_data : list (list (list (option R)))) (T : nat) :
  all_cells (fun s => length s = T) daily_data ->
  (1 <= T ->
   exists dvar : list (list (option R)),
     main daily_data = inr dvar /\
     (forall i j : nat,
        is_Some (cell dvar i j) <-> is_Some (cell daily_data i j)) /\
     forall (i j : nat) (s : list (option R)),
       cell daily_data i j = Some s -> Forall is_Some s ->
       (cell dvar i j = Some None <-> T < 49)) /\
  (T = 0 -> (exists i j : nat, is_Some (cell daily_data i j)) ->
   main daily_data = inl ValueError).
Proof.
  intros Hext. unfold main. split.
  - intros HT.
    destruct (tc_seed_index_eq 50 (1 / 3) (1 / 10) daily_data)
      as (hfw & lfw & Hh & Hl & ->);
      [lia | by apply time_extent_nonempty with T|].
    change (Z.to_nat ((50 - 1) / 2)) with 24 in Hh, Hl.
    eexists. split; [done|]. split.
    + intros i j. rewrite cell_map_cells. apply fmap_is_Some.
    + intros i j s Hs Hp. rewrite cell_map_cells, Hs. simpl.
      rewrite <- (all_cells_cell _ daily_data i j s Hext Hs).
      rewrite <- (nanvar_bandpass_missing_iff hfw lfw s 24 Hh Hl Hp).
      split; [by intros [= ->] | by intros ->].
  - intros -> (i & j & Hcell). apply tc_seed_index_empty_axis.
    by apply empty_axis_cell with i j.
Qed.

Lemma main_outcome_witness :
  (1 <= 2 ->
   exists dvar : list (list (option R)),
     main [[[Some 1%R; Some 2%R]]] = inr dvar /\
     (forall i j : nat,
        is_Some (cell dvar i j)
        <-> is_Some (cell [[[Some 1%R; Some 2%R]]] i j)) /\
     forall (i j : nat) (s : list (option R)),
       cell [[[Some 1%R; Some 2%R]]] i j = Some s -> Forall is_Some s ->
       (cell dvar i j = Some None <-> 2 < 49)) /\
  (2 = 0 -> (exists i j : nat, is_Some (cell [[[Some 1%R; Some 2%R]]] i j)) ->
   main [[[Some 1%R; Some 2%R]]] = inl ValueError).
Proof.
  apply (main_outcome [[[Some 1%R; Some 2%R]]] 2). repeat constructor.
Defined.

(** ** Missing values in the input *)

Lemma pad_lookup_inside (b a : nat) (s : list (option R)) (u : nat) :
  Xr.pad b a s !! (b + u) = (s ++ replicate a None) !! u.
Proof.
  unfold Xr.pad. rewrite lookup_app_r; rewrite length_replicate; [|lia].
  f_equal. lia.
Qed.

Lemma filter_series_missing_input (weights : list R) (s : list (option R))
    (u t : nat) :
  1 <= length weights -> s !! u = Some None -> t < length s ->
  t <= u + length weights / 2 -> u + length weights / 2 < t + length weights ->
  filter_series weights s !! t = Some None.
Proof.
  intros HL Hu Ht Hlo Hhi. unfold filter_series.
  rewrite list_lookup_fmap, rolling_construct_series_lookup by done.
  simpl. f_equal.
  apply dot_window_None with (u + length weights / 2 - t); [lia|].
  rewrite lookup_take_lt, lookup_drop by lia.
  replace (t + (u + length weights / 2 - t)) with (length weights / 2 + u)
    by lia.
  rewrite pad_lookup_inside. by apply lookup_app_l_Some.
Qed.

(** X10: on an array of [T >= 1] time steps, a missing value in the
    input is missing in every output whose window covers it: at input
    index [u], the outputs from [u + L div 2 - (L - 1)] to [u + L div 2]
    are missing, whatever the weights, zero ones included. *)
Theorem apply_filter_missing_input (da : list (list (list (option R))))
    (weights : list R) (T : nat) :
  1 <= length weights ->
  all_cells (fun s => length s = T) da -> 1 <= T ->
  exists out : list (list (list (option R))),
    apply_filter da weights = inr out /\
    forall (i j : nat) (s : list (option R)),
      cell da i j = Some s ->
      exists o : list (option R),
        cell out i j = Some o /\
        forall u t : nat,
          s !! u = Some None -> t < length s ->
          t <= u + length weights / 2 ->
          u + length weights / 2 < t + length weights ->
          o !! t = Some None.
Proof.
  intros HL Hext HT. eexists.
  split; [apply apply_filter_eq; [done | by apply time_extent_nonempty with T]|].
  intros i j s Hs. exists (filter_series weights s).
  split; [by rewrite cell_map_cells, Hs|].
  intros u t. by apply filter_series_missing_input.
Qed.

Lemma apply_filter_missing_input_witness :
  exists out : list (list (list (option R))),
    apply_filter [[[Some 1%R; None; Some 3%R; Some 4%R]]] [0%R; 0%R; 0%R]
    = inr out /\
    forall (i j : nat) (s : list (option R)),
      cell [[[Some 1%R; None; Some 3%R; Some 4%R]]] i j = Some s ->
      exists o : list (option R),
        cell out i j = Some o /\
        forall u t : nat,
          s !! u = Some None -> t < length s ->
          t <= u + length [0%R; 0%R; 0%R] / 2 ->
          u + length [0%R; 0%R; 0%R] / 2 < t + length [0%R; 0%R; 0%R] ->
          o !! t = Some None.
Proof.
  apply (apply_filter_missing_input
           [[[Some 1%R; None; Some 3%R; Some 4%R]]] [0%R; 0%R; 0%R] 4).
  - simpl. lia.
  - repeat constructor.
  - lia.
Defined.

(** ** The variance of one cell *)

Lemma Rsum_nonneg (xs : list R) :
  Forall (fun x => (0 <= x)%R) xs -> (0 <= Xr.Rsum xs)%R.
Proof.
  unfold Xr.Rsum. induction 1 as [|x xs Hx _ IH]; simpl; lra.
Qed.

Lemma squares_nonneg (mean : R) (xs : list R) :
  Forall (fun x => (0 <= x)%R)
    ((fun x => (x - mean) * (x - mean))%R <$> xs).
Proof.
  apply Forall_fmap, Forall_true. intros x. exact (Rle_0_sqr (x - mean)).
Qed.

Lemma nanvar_some (s : list (option R)) (v : R) :
  Xr.nanvar 0 s = Some v ->
  Xr.present s <> [] /\
  v = (Xr.Rsum ((fun x =>
                   (x - Xr.Rsum (Xr.present s) / INR (length (Xr.present s)))
                   * (x - Xr.Rsum (Xr.present s)
                          / INR (length (Xr.present s))))%R
                <$> Xr.present s)
       / INR (length (Xr.present s)))%R.
Proof.
  unfold Xr.nanvar.
  destruct (decide (length (Xr.present s) <= 0)) as [Hle|Hgt]; [done|].
  intros [= <-]. rewrite Nat.sub_0_r. split; [|done].
  intros Hnil. rewrite Hnil in Hgt. simpl in Hgt. lia.
Qed.

Lemma nanvar_nonneg (s : list (option R)) (v : R) :
  Xr.nanvar 0 s = Some v -> (0 <= v)%R.
Proof.
  intros (Hne & ->)%nanvar_some.
  assert (0 < INR (length (Xr.present s)))%R.
  { apply lt_0_INR. destruct (Xr.present s); [done | simpl; lia]. }
  apply Rmult_le_pos; [apply Rsum_nonneg, squares_nonneg|].
  left. by apply Rinv_0_lt_compat.
Qed.

(** X11: a variance that is not missing is not negative. *)
Theorem variance_not_negative (bandpass : list (list (list (option R))))
    (i j : nat) (v : R) :
  cell (Xr.var bandpass) i j = Some (Some v) -> (0 <= v)%R.
Proof.
  unfold Xr.var. rewrite cell_map_cells.
  destruct (cell bandpass i j) as [s|]; [|done]. simpl.
  intros [= Hv]. by apply nanvar_nonneg with s.
Qed.

Lemma variance_not_negative_witness :
  (0 <= (((1 - (1 + (3 + 0)) / (1 + 1)) * (1 - (1 + (3 + 0)) / (1 + 1))
          + ((3 - (1 + (3 + 0)) / (1 + 1)) * (3 - (1 + (3 + 0)) / (1 + 1))
             + 0)) / (1 + 1)))%R.
Proof.
  apply (variance_not_negative [[[Some 1%R; None; Some 3%R]]] 0 0).
  reflexivity.
Defined.

(** ** How many values the filter leaves *)

Lemma present_fmap_Some (xs : list R) : Xr.present (Some <$> xs) = xs.
Proof.
  unfold Xr.present. induction xs as [|x xs IH]; [done|].
  csimpl. by rewrite IH.
Qed.

Lemma present_all_present (s : list (option R)) :
  Forall is_Some s -> length (Xr.present s) = length s.
Proof.
  intros [xs ->]%all_present_fmap. by rewrite present_fmap_Some, length_fmap.
Qed.

Lemma filter_series_valid_count (weights : list R) (xs : list R) :
  1 <= length weights ->
  length (Xr.present (filter_series weights (Some <$> xs)))
  = length xs + 1 - length weights.
Proof.
  intros HL. set (L := length weights). set (T := length xs).
  set (o := filter_series weights (Some <$> xs)).
  assert (Ho : length o = T).
  { unfold o. by rewrite filter_series_length, length_fmap. }
  pose proof (half_window_bounds L HL) as Hb.
  destruct (decide (T < L)) as [Hshort|Hlong].
  { rewrite present_all_missing; [simpl; lia|].
    intros t Ht. apply filter_series_outside; try done.
    - rewrite length_fmap. lia.
    - rewrite length_fmap. apply full_window_short; done. }
  rewrite <- (take_drop (L / 2) o), present_app.
  rewrite <- (take_drop (T + 1 - L) (drop (L / 2) o)), present_app.
  rewrite !length_app.
  rewrite (present_all_missing (take (L / 2) o)).
  2:{ intros t Ht. rewrite length_take in Ht.
      rewrite lookup_take_lt by lia.
      apply filter_series_outside; rewrite ?length_fmap; try done; try lia.
      unfold full_window. fold L. lia. }
  rewrite (present_all_missing (drop _ (drop _ o))).
  2:{ intros t Ht. rewrite !length_drop in Ht. rewrite !lookup_drop.
      apply filter_series_outside; rewrite ?length_fmap; try done; try lia.
      unfold full_window. fold L T. lia. }
  rewrite present_all_present.
  - rewrite length_take, length_drop, Ho. cbn [length]. lia.
  - apply Forall_lookup_2. intros t v Hv.
    pose proof (lookup_lt_Some _ _ _ Hv) as Ht.
    rewrite length_take, length_drop in Ht.
    rewrite lookup_take_lt, lookup_drop in Hv by lia.
    unfold o in Hv. rewrite filter_series_inside_present in Hv.
    + injection Hv as <-. by eexists.
    + done.
    + unfold full_window. fold L T. lia.
Qed.

(** X14: on an array of [T >= 1] time steps, in a cell without missing
    values a filter with [L >= 1] weights leaves [T + 1 - L] values
    present, none when [T < L]. *)
Theorem apply_filter_valid_count (da : list (list (list (option R))))
    (weights : list R) (T : nat) :
  1 <= length weights ->
  all_cells (fun s => length s = T) da -> 1 <= T ->
  exists out : list (list (list (option R))),
    apply_filter da weights = inr out /\
    forall (i j : nat) (s : list (option R)),
      cell da i j = Some s -> Forall is_Some s ->
      exists o : list (option R),
        cell out i j = Some o /\
        length (Xr.present o) = T + 1 - length weights.
Proof.
  intros HL Hext HT. eexists.
  split; [apply apply_filter_eq; [done | by apply time_extent_nonempty with T]|].
  intros i j s Hs Hp. exists (filter_series weights s).
  split; [by rewrite cell_map_cells, Hs|].
  rewrite <- (all_cells_cell _ da i j s Hext Hs).
  destruct (all_present_fmap s Hp) as [xs ->].
  rewrite filter_series_valid_count by done. by rewrite length_fmap.
Qed.

Lemma apply_filter_valid_count_witness :
  exists out : list (list (list (option R))),
    apply_filter [[replicate 10 (Some 1%R)]] [1%R; 2%R; 1%R] = inr out /\
    forall (i j : nat) (s : list (option R)),
      cell [[replicate 10 (Some 1%R)]] i j = Some s -> Forall is_Some s ->
      exists o : list (option R),
        cell out i j = Some o /\
        length (Xr.present o) = 10 + 1 - length [1%R; 2%R; 1%R].
Proof.
  apply (apply_filter_valid_count [[replicate 10 (Some 1%R)]]
           [1%R; 2%R; 1%R] 10).
  - simpl. lia.
  - repeat constructor.
  - lia.
Defined.

(** ** A change of unit of the input *)

Lemma pad_fmap (f : option R -> option R) (b a : nat) (s : list (option R)) :
  f None = None -> Xr.pad b a (f <$> s) = f <$> Xr.pad b a s.
Proof.
  intros Hf. unfold Xr.pad. by rewrite !fmap_app, !fmap_replicate, Hf.
Qed.

Lemma rolling_construct_series_fmap (f : option R -> option R) (L : nat)
    (s : list (option R)) :
  f None = None ->
  Xr.rolling_construct_series L (f <$> s)
  = fmap (M := list) (fmap (M := list) f) (Xr.rolling_construct_series L s).
Proof.
  intros Hf. unfold Xr.rolling_construct_series, Xr.sliding_window_view.
  rewrite pad_fmap by done. rewrite length_fmap, <- list_fmap_compose.
  apply list_fmap_ext. intros _ t _. simpl. by rewrite fmap_take, fmap_drop.
Qed.

Lemma dot_window_scale (win : list (option R)) (weights : list R) (a : R) :
  Xr.dot_window ((fun v => Xr.vscale v a) <$> win) weights
  = Xr.vscale (Xr.dot_window win weights) a.
Proof.
  unfold Xr.dot_window. revert weights.
  induction win as [|x win IH]; intros [|w ws]; csimpl;
    try (f_equal; lra).
  rewrite IH. destruct x as [x|]; [|done]. simpl.
  destruct (foldr Xr.vadd (Some 0%R) (zip_with Xr.vscale win ws)); [|done].
  simpl. f_equal. lra.
Qed.

Lemma filter_series_scale (weights : list R) (s : list (option R)) (a : R) :
  filter_series weights ((fun v => Xr.vscale v a) <$> s)
  = (fun v => Xr.vscale v a) <$> filter_series weights s.
Proof.
  unfold filter_series. rewrite rolling_construct_series_fmap by done.
  rewrite <- !list_fmap_compose. apply list_fmap_ext. intros _ win _.
  apply dot_window_scale.
Qed.

Lemma bandpass_series_scale (hfw lfw : list R) (s : list (option R)) (a : R) :
  bandpass_series hfw lfw ((fun v => Xr.vscale v a) <$> s)
  = (fun v => Xr.vscale v a) <$> bandpass_series hfw lfw s.
Proof.
  unfold bandpass_series. rewrite !filter_series_scale.
  generalize (filter_series hfw s) (filter_series lfw s).
  induction l as [|x l IH]; intros [|y k]; csimpl; try done.
  rewrite IH. f_equal. destruct x, y; simpl; try done. f_equal. lra.
Qed.

Lemma present_scale (s : list (option R)) (a : R) :
  Xr.present ((fun v => Xr.vscale v a) <$> s)
  = (fun x => x * a)%R <$> Xr.present s.
Proof.
  unfold Xr.present. induction s as [|[x|] s IH]; csimpl; try done.
  by rewrite IH.
Qed.

Lemma Rsum_scale_r (xs : list R) (a : R) :
  Xr.Rsum ((fun x => x * a)%R <$> xs) = (Xr.Rsum xs * a)%R.
Proof.
  unfold Xr.Rsum. induction xs as [|x xs IH]; csimpl; [lra|].
  rewrite IH. lra.
Qed.

(** The variance of a rescaled series is rescaled by the square. *)
Lemma nanvar_scale (s : list (option R)) (a : R) :
  Xr.nanvar 0 ((fun v => Xr.vscale v a) <$> s)
  = Xr.vscale (Xr.nanvar 0 s) (a * a).
Proof.
  unfold Xr.nanvar. rewrite present_scale, length_fmap.
  destruct (decide (length (Xr.present s) <= 0)) as [Hle|Hgt]; [done|].
  simpl. f_equal. rewrite Nat.sub_0_r.
  set (xs := Xr.present s) in *. set (n := INR (length xs)).
  assert (Hn : (0 < n)%R) by (apply lt_0_INR; lia).
  rewrite Rsum_scale_r, <- list_fmap_compose.
  set (mean := (Xr.Rsum xs / n)%R).
  replace (Xr.Rsum ((fun x => (x - Xr.Rsum xs * a / n)
                              * (x - Xr.Rsum xs * a / n))%R
                    ∘ (fun x => x * a)%R <$> xs))
    with (Xr.Rsum ((fun x => x * (a * a))%R
                   <$> ((fun x => (x - mean) * (x - mean))%R <$> xs))).
  - rewrite Rsum_scale_r. field. lra.
  - f_equal. rewrite <- list_fmap_compose. apply list_fmap_ext.
    intros _ x _. simpl. unfold mean. field. lra.
Qed.

(** X16: a change of unit goes through the pipeline, in real arithmetic:
    on an array of [T >= 1] time steps, multiplying every input value by
    [a] multiplies every variance by [a * a] and leaves missing variances
    missing. *)
Theorem tc_seed_index_scale (window : Z) (cut_hf cut_lf : R)
    (da : list (list (list (option R)))) (a : R) (T : nat) :
  (1 <= window)%Z ->
  all_cells (fun s => length s = T) da -> 1 <= T ->
  exists vm : list (list (option R)),
    tc_seed_index window cut_hf cut_lf da = inr vm /\
    tc_seed_index window cut_hf cut_lf
      (Xr.map_cells (fmap (M := list) (fun v => Xr.vscale v a)) da)
    = inr (Xr.map_cells (fun v => Xr.vscale v (a * a)) vm).
Proof.
  intros Hw Hext HT.
  pose proof (time_extent_nonempty da T Hext HT) as Hne.
  assert (Hne' : all_cells (fun s : list (option R) => 1 <= length s)
                   (Xr.map_cells
                      (fmap (M := list) (fun v => Xr.vscale v a)) da)).
  { unfold all_cells, Xr.map_cells in *. apply Forall_fmap.
    eapply Forall_impl; [exact Hne|]. intros row Hrow. simpl.
    apply Forall_fmap. eapply Forall_impl; [exact Hrow|].
    intros s Hs. simpl. by rewrite length_fmap. }
  destruct (low_pass_weights_nat_length window cut_hf Hw) as (hfw & Hhf & Hh).
  destruct (low_pass_weights_nat_length window cut_lf Hw) as (lfw & Hlf & Hl).
  unfold tc_seed_index. rewrite Hhf, Hlf. cbn [bind].
  rewrite !bandpass_variance_eq by (done || lia).
  eexists. split; [done|]. f_equal. rewrite !map_cells_compose.
  unfold Xr.map_cells. apply list_fmap_ext. intros _ row _.
  apply list_fmap_ext. intros _ s _.
  by rewrite bandpass_series_scale, nanvar_scale.
Qed.

Lemma tc_seed_index_scale_witness :
  exists vm : list (list (option R)),
    tc_seed_index 50 (1 / 3) (1 / 10) [[replicate 60 (Some 1%R)]] = inr vm /\
    tc_seed_index 50 (1 / 3) (1 / 10)
      (Xr.map_cells (fmap (M := list) (fun v => Xr.vscale v 100))
         [[replicate 60 (Some 1%R)]])
    = inr (Xr.map_cells (fun v => Xr.vscale v (100 * 100)) vm).
Proof.
  apply (tc_seed_index_scale 50 (1 / 3) (1 / 10)
           [[replicate 60 (Some 1%R)]] 100 60).
  - lia.
  - repeat constructor.
  - lia.
Defined.
